(** * A treap with in-place split and insert (temp.cpp)

    The C++ source keeps every node on the heap and hands pointers around
    by reference: [split] receives the tree as [Node const&] and its two
    results as [Node&] out-parameters, and calls itself with
    [treap->left] (resp. [treap->right]) passed both as the tree and as
    one of the out-parameters.  The embedding therefore models the store
    and the references explicitly: a reference is a memory cell holding a
    pointer, and two references may denote the same cell. *)

From stdpp Require Import gmap list fin_maps.
From Stdlib Require Import ZArith Lia Sorted.

#[local] Set Warnings "-clear-no-such-hyp".

Local Open Scope Z_scope.

(** * Definitions *)

(** ** Store *)

(** Addresses of heap-allocated nodes.  A pointer (the source's private
    typedef [Node]) is either NULL or an address. *)
Definition addr := positive.
Definition Node := option addr.

(** [struct NodeImpl<int,int>]: keys and payloads are only compared and
    copied, priorities ([long]) are only compared. *)
Record NodeImpl := mkNode {
  tree_key : Z;
  payload : Z;
  heap_key : Z;
  left : Node;
  right : Node
}.

(** An lvalue of type [Node]: a local variable of a caller, or the
    [left] / [right] field of an allocated node. *)
Inductive ref :=
| Var (x : nat)
| Left (a : addr)
| Right (a : addr).

Global Arguments Left a%_positive.
Global Arguments Right a%_positive.

Global Instance ref_eq_dec : EqDecision ref.
Proof. solve_decision. Defined.

Record mem := mkMem {
  vars : gmap nat Node;
  nodes : gmap addr NodeImpl
}.

(** Reading through a reference; [None] is a read of a cell that does
    not exist (undefined behaviour in the source). *)
Definition read (m : mem) (x : ref) : option Node :=
  match x with
  | Var v => vars m !! v
  | Left a => left <$> nodes m !! a
  | Right a => right <$> nodes m !! a
  end.

Definition set_left (p : Node) (n : NodeImpl) : NodeImpl :=
  mkNode (tree_key n) (payload n) (heap_key n) p (right n).

Definition set_right (p : Node) (n : NodeImpl) : NodeImpl :=
  mkNode (tree_key n) (payload n) (heap_key n) (left n) p.

(** Assignment through a reference. *)
Definition write (m : mem) (x : ref) (p : Node) : option mem :=
  match x with
  | Var v =>
      match vars m !! v with
      | Some _ => Some (mkMem (<[v := p]> (vars m)) (nodes m))
      | None => None
      end
  | Left a =>
      match nodes m !! a with
      | Some n => Some (mkMem (vars m) (<[a := set_left p n]> (nodes m)))
      | None => None
      end
  | Right a =>
      match nodes m !! a with
      | Some n => Some (mkMem (vars m) (<[a := set_right p n]> (nodes m)))
      | None => None
      end
  end.

(** ** The four operations of [NodeImpl] *)

(** [exists(treap, k)]; the pointer is passed by value. *)
Fixpoint exists_ (fuel : nat) (m : mem) (treap : Node) (k : Z) : option bool :=
  match fuel with
  | O => None
  | S f =>
      match treap with
      | None => Some false
      | Some a =>
          n ← nodes m !! a;
          if k =? tree_key n then Some true
          else exists_ f m (if k <? tree_key n then left n else right n) k
      end
  end.

(** [split(treap, k, l, r)]: all three pointers are references.  The
    recursive calls pass the same cell twice, and [r = treap] /
    [l = treap] read the cell [treap] after the recursive call has
    returned. *)
Fixpoint split (fuel : nat) (m : mem) (treap : ref) (k : Z) (l r : ref)
  : option mem :=
  match fuel with
  | O => None
  | S f =>
      p ← read m treap;
      match p with
      | None =>
          m1 ← write m r None;
          v ← read m1 r;
          write m1 l v
      | Some a =>
          n ← nodes m !! a;
          if k <? tree_key n then
            m1 ← split f m (Left a) k l (Left a);
            v ← read m1 treap;
            write m1 r v
          else
            m1 ← split f m (Right a) k (Right a) r;
            v ← read m1 treap;
            write m1 l v
      end
  end.

(** [insert(treap, new_node)]: the tree is a reference, the new node a
    pointer passed by value. *)
Fixpoint insert (fuel : nat) (m : mem) (treap : ref) (new_node : addr)
  : option mem :=
  match fuel with
  | O => None
  | S f =>
      p ← read m treap;
      match p with
      | None => write m treap (Some new_node)
      | Some a =>
          n ← nodes m !! a;
          nn ← nodes m !! new_node;
          if heap_key nn <? heap_key n then
            insert f m
              (if tree_key nn <? tree_key n then Left a else Right a)
              new_node
          else
            m1 ← split f m treap (tree_key nn) (Left new_node) (Right new_node);
            write m1 treap (Some new_node)
      end
  end.

(** [unsigned long] is 64 bits wide; the addition wraps. *)
Definition ulong_mod : Z := 2 ^ 64.

Fixpoint height (fuel : nat) (m : mem) (treap : ref) : option Z :=
  match fuel with
  | O => None
  | S f =>
      p ← read m treap;
      match p with
      | None => Some 0
      | Some a =>
          lh ← height f m (Left a);
          rh ← height f m (Right a);
          Some ((1 + (if lh <? rh then rh else lh)) mod ulong_mod)
      end
  end.

(** ** The driver loop *)

(** [new Node(k, v)]: a fresh address, the priority drawn by [rand()]
    given as [rnd], both children NULL. *)
Definition new_Node (m : mem) (k v rnd : Z) : mem * addr :=
  let a := fresh (dom (nodes m)) in
  (mkMem (vars m) (<[a := mkNode k v rnd None None]> (nodes m)), a).

(** The successive calls [insert(x, new Node(k, v))] of the loop, each
    input being the two [int] arguments as the constructor receives
    them and the priority drawn for the node; [main_read] below puts
    the conversion of the values read in front. *)
Fixpoint main_loop (fuel : nat) (m : mem) (x : ref) (input : list (Z * Z * Z))
  : option mem :=
  match input with
  | [] => Some m
  | (k, v, rnd) :: rest =>
      let '(m1, a) := new_Node m k v rnd in
      m2 ← insert fuel m1 x a;
      main_loop fuel m2 x rest
  end.

(** [Node * x = NULL], then the loop; the recursion depth never exceeds
    the number of nodes. *)
Definition main_mem : mem := mkMem {[ 0%nat := None ]} ∅.

Definition run (input : list (Z * Z * Z)) : option mem :=
  main_loop (S (S (length input))) main_mem (Var 0) input.

(** [main] reads [long k, v] and passes them to a constructor that
    takes [int const&]: the values are converted from [long] to [int],
    that is, reduced modulo [2 ^ 32] into the range of [int]. *)
Definition to_int (z : Z) : Z := (z + 2 ^ 31) mod 2 ^ 32 - 2 ^ 31.

(** [while (cin >> k >> v) insert(x, new Node(k, v))]; each input is
    the pair of [long] values read together with the priority drawn for
    the node. *)
Fixpoint main_read (fuel : nat) (m : mem) (x : ref) (input : list (Z * Z * Z))
  : option mem :=
  match input with
  | [] => Some m
  | (k, v, rnd) :: rest =>
      let '(m1, a) := new_Node m (to_int k) (to_int v) rnd in
      m2 ← insert fuel m1 x a;
      main_read fuel m2 x rest
  end.

(** [Node * x = NULL], then the loop over the values read. *)
Definition main (input : list (Z * Z * Z)) : option mem :=
  main_read (S (S (length input))) main_mem (Var 0) input.

(** ** Logical trees *)

(** The tree a pointer denotes in a store: every node with its address
    and the three data members. *)
Inductive tree :=
| E
| T (a : addr) (k v hk : Z) (l r : tree).

Global Arguments T a%_positive k%_Z v%_Z hk%_Z l r.

Global Instance tree_eq_dec : EqDecision tree.
Proof. solve_decision. Defined.

Fixpoint addrs (t : tree) : list addr :=
  match t with
  | E => []
  | T a _ _ _ l r => a :: addrs l ++ addrs r
  end.

(** The child cells owned by the nodes of a tree. *)
Fixpoint cells (t : tree) : list ref :=
  match t with
  | E => []
  | T a _ _ _ l r => Left a :: Right a :: cells l ++ cells r
  end.

(** In-order keys. *)
Fixpoint keys (t : tree) : list Z :=
  match t with
  | E => []
  | T _ k _ _ l r => keys l ++ k :: keys r
  end.

(** The (key, value, priority) triples of a tree, with the node that
    carries them. *)
Fixpoint triples (t : tree) : list (addr * (Z * Z * Z)) :=
  match t with
  | E => []
  | T a k v hk l r => (a, (k, v, hk)) :: triples l ++ triples r
  end.

Fixpoint depth (t : tree) : nat :=
  match t with
  | E => 0
  | T _ _ _ _ l r => S (Nat.max (depth l) (depth r))
  end.

(** The data members of the node at an address. *)
Definition pay (m : mem) (a : addr) : option (Z * Z * Z) :=
  (λ n, (tree_key n, payload n, heap_key n)) <$> nodes m !! a.

Fixpoint repr (m : mem) (p : Node) (t : tree) : Prop :=
  match t with
  | E => p = None
  | T a k v hk l r =>
      p = Some a ∧ pay m a = Some (k, v, hk) ∧
      (∃ pl, read m (Left a) = Some pl ∧ repr m pl l) ∧
      (∃ pr, read m (Right a) = Some pr ∧ repr m pr r)
  end.

(** BST invariant: keys of the left subtree below, keys of the right
    subtree above the key of every node. *)
Fixpoint bst (t : tree) : Prop :=
  match t with
  | E => True
  | T _ k _ _ l r =>
      Forall (λ x, x < k) (keys l) ∧ Forall (λ x, k < x) (keys r) ∧
      bst l ∧ bst r
  end.

(** Heap invariant: no node has a priority above its parent's. *)
Definition root_le (hk : Z) (t : tree) : Prop :=
  match t with
  | E => True
  | T _ _ _ hk' _ _ => hk' ≤ hk
  end.

Fixpoint heap_ord (t : tree) : Prop :=
  match t with
  | E => True
  | T _ _ _ hk l r => root_le hk l ∧ root_le hk r ∧ heap_ord l ∧ heap_ord r
  end.

(** ** Tree-level effect of the operations *)

(** What a recursive call of [split] leaves in the cell it received
    both as [treap] and as [r]: the nodes of the left spine whose key is
    above the pivot, up to the first one that is not. *)
Fixpoint cut_left (k : Z) (t : tree) : tree :=
  match t with
  | E => E
  | T a key v hk l r =>
      if k <? key then T a key v hk (cut_left k l) r else E
  end.

(** Likewise for the cell received both as [treap] and as [l]. *)
Fixpoint cut_right (k : Z) (t : tree) : tree :=
  match t with
  | E => E
  | T a key v hk l r =>
      if k <? key then E else T a key v hk l (cut_right k r)
  end.

(** The two trees an outermost call of [split] stores in [l] and [r]
    (lemma [split_refines]). *)
Definition split_tree (t : tree) (k : Z) : tree * tree :=
  match t with
  | E => (E, E)
  | T a key v hk l r =>
      if k <? key then (E, T a key v hk (cut_left k l) r)
      else (T a key v hk l (cut_right k r), E)
  end.

(** The tree a call of [insert] leaves in [treap] (lemma
    [insert_refines]): the new node at the root of an empty tree; below
    a root of strictly greater priority the tree with the insertion
    continued in the left child if the new key is smaller and in the
    right child if not; otherwise the new node with, as children, the
    two trees that the code's [split] stores, [split_tree]. *)
Fixpoint insert_tree (t : tree) (n : addr) (k v hk : Z) : tree :=
  match t with
  | E => T n k v hk E E
  | T a key val prio l r =>
      if hk <? prio then
        if k <? key then T a key val prio (insert_tree l n k v hk) r
        else T a key val prio l (insert_tree r n k v hk)
      else T n k v hk (split_tree t k).1 (split_tree t k).2
  end.

(** Follows the spec's words (4.1, Split): the empty tree gives two
    empty trees; a root whose key is below the pivot stays on the left,
    its right child replaced by the left part of the split of its right
    subtree; any other root stays on the right, its left child replaced
    by the right part of the split of its left subtree. *)
Fixpoint split_by_spec (t : tree) (key : Z) : tree * tree :=
  match t with
  | E => (E, E)
  | T a k v hk l r =>
      if k <? key then
        let '(rl, rr) := split_by_spec r key in (T a k v hk l rl, rr)
      else
        let '(ll, lr) := split_by_spec l key in (ll, T a k v hk lr r)
  end.

(** Follows the spec's words (4.1, Insert): the new node becomes the
    root of an empty tree; below a root of strictly greater priority the
    insertion continues in the left child if the new key is smaller and
    in the right child if not; otherwise the tree is split at the new
    key as specified and the two parts become the children of the new
    node. *)
Fixpoint insert_by_spec (t : tree) (n : addr) (k v hk : Z) : tree :=
  match t with
  | E => T n k v hk E E
  | T a key val prio l r =>
      if hk <? prio then
        if k <? key then T a key val prio (insert_by_spec l n k v hk) r
        else T a key val prio l (insert_by_spec r n k v hk)
      else
        let '(L, R) := split_by_spec t k in T n k v hk L R
  end.

(** Follows the spec's words (4.1, Height). *)
Fixpoint height_spec (t : tree) : Z :=
  match t with
  | E => 0
  | T _ _ _ _ l r => 1 + Z.max (height_spec l) (height_spec r)
  end.

(** ** Root-to-leaf paths *)

(** The node sequences from the root to a leaf. *)
Fixpoint paths (t : tree) : list (list addr) :=
  match t with
  | E => []
  | T a _ _ _ l r =>
      match l, r with
      | E, E => [[a]]
      | _, _ => cons a <$> (paths l ++ paths r)
      end
  end.

(** The number of nodes on the longest of a list of paths. *)
Definition longest (ps : list (list addr)) : nat :=
  foldr (λ p acc, Nat.max (length p) acc) 0%nat ps.

(** ** Stores and calls *)

(** Cells outside a given list keep their contents. *)
Definition frame (m m' : mem) (X : list ref) : Prop :=
  ∀ y, y ∉ X → read m' y = read m y.

(** A pointer cell holding a tree. *)
Definition tree_at (m : mem) (x : ref) (t : tree) : Prop :=
  ∃ p, read m x = Some p ∧ repr m p t.

(** Pointers are 64 bits wide: every address lies below [2 ^ 64]. *)
Definition ptr64 (t : tree) : Prop :=
  Forall (λ a, Z.pos a < ulong_mod) (addrs t).

(** The store with every priority replaced by its image under [g]. *)
Definition reprio_node (g : Z → Z) (n : NodeImpl) : NodeImpl :=
  mkNode (tree_key n) (payload n) (g (heap_key n)) (left n) (right n).

Definition reprio (g : Z → Z) (m : mem) : mem :=
  mkMem (vars m) (reprio_node g <$> nodes m).

(** The keys the driver reads. *)
Definition input_keys (input : list (Z * Z * Z)) : list Z :=
  (λ x, x.1.1) <$> input.

(** The cell [c] holds the tree [t]; every node of [t] occurs once (each
    node exclusively owns its subtrees) and [c] is not a child cell of
    one of them. *)
Definition owns (m : mem) (c : ref) (t : tree) : Prop :=
  tree_at m c t ∧ NoDup (addrs t) ∧ (c ∉ cells t).

(** The out-parameters of an outermost call of [split]: two existing
    cells, distinct from each other and from [treap], outside the tree. *)
Definition out_params (m : mem) (c l r : ref) (t : tree) : Prop :=
  (l ∉ cells t) ∧ (r ∉ cells t) ∧ l ≠ r ∧ c ≠ l ∧ c ≠ r ∧
  is_Some (read m l) ∧ is_Some (read m r).

(** A node as the constructor leaves it, not yet part of the tree. *)
Definition fresh_node (m : mem) (c : ref) (n : addr) (k v hk : Z) (t : tree)
  : Prop :=
  (n ∉ addrs t) ∧ c ≠ Left n ∧ c ≠ Right n ∧ repr m (Some n) (T n k v hk E E).

(** ** The driver at the level of trees *)

(** The priorities of a tree. *)
Fixpoint prios (t : tree) : list Z :=
  match t with
  | E => []
  | T _ _ _ hk l r => hk :: prios l ++ prios r
  end.

(** The data members of the root. *)
Definition root_item (t : tree) : option (Z * Z * Z) :=
  match t with
  | E => None
  | T _ k v hk _ _ => Some (k, v, hk)
  end.

(** The successive insertions of the driver loop, the i-th input being
    stored in the node allocated at the i-th address. *)
Fixpoint insert_all (t : tree) (ns : list addr) (input : list (Z * Z * Z))
  : tree :=
  match ns, input with
  | n :: ns', (k, v, rnd) :: rest => insert_all (insert_tree t n k v rnd) ns' rest
  | _, _ => t
  end.

(** A pair read, as the node stores it. *)
Definition narrow (x : Z * Z * Z) : Z * Z * Z :=
  (to_int x.1.1, to_int x.1.2, x.2).

(** The keys of the nodes the driver constructs. *)
Definition stored_keys (input : list (Z * Z * Z)) : list Z :=
  (λ x, to_int x.1.1) <$> input.

(** The priorities the driver draws. *)
Definition input_prios (input : list (Z * Z * Z)) : list Z :=
  (λ x, x.2) <$> input.

(** ** Concrete stores *)

(** Root 10 (priority 5) with left child 5 (priority 3); a third node 7
    (priority 9) not yet inserted; two spare pointer variables. *)
Definition mem_a : mem :=
  mkMem (<[0%nat := Some 1%positive]> (<[1%nat := None]> {[ 2%nat := None ]}))
        (<[1%positive := mkNode 10 0 5 (Some 2%positive) None]>
           (<[2%positive := mkNode 5 0 3 None None]>
              {[ 3%positive := mkNode 7 0 9 None None ]})).

Definition tree_a : tree := T 1 10 0 5 (T 2 5 0 3 E E) E.

(** Root 5 (priority 7) alone; a second node 10 (priority 4) not yet
    inserted. *)
Definition mem_c : mem :=
  mkMem (<[0%nat := Some 1%positive]> (<[1%nat := None]> {[ 2%nat := None ]}))
        (<[1%positive := mkNode 5 0 7 None None]>
           {[ 2%positive := mkNode 10 0 4 None None ]}).

Definition tree_c : tree := T 1 5 0 7 E E.

(** Tactics that check the side conditions of a call on a concrete
    store by evaluation. *)
Ltac solve_tree_at :=
  repeat first
    [ reflexivity
    | match goal with
      | |- tree_at _ _ _ => eexists
      | |- repr _ _ _ => simpl
      | |- _ ∧ _ => split
      | |- ∃ _, _ => eexists
      end ].

Ltac solve_owns := split; [solve_tree_at | split; compute_done].
Ltac solve_out_params := repeat split; compute_done.
Ltac solve_fresh_node :=
  split; [compute_done|]; split; [compute_done|]; split; [compute_done|];
  solve_tree_at.

(** * Lemmas *)

(** ** Reading and writing cells *)

Lemma read_write m x p m' y :
  write m x p = Some m' →
  read m' y = if decide (x = y) then Some p else read m y.
Proof.
  intros Hw. destruct (decide (x = y)) as [<-|Hne].
  - destruct x as [v|a|a]; simpl in *.
    + destruct (vars m !! v); [|done]. injection Hw as <-. simpl.
      by rewrite lookup_insert_eq.
    + destruct (nodes m !! a); [|done]. injection Hw as <-. simpl.
      by rewrite lookup_insert_eq.
    + destruct (nodes m !! a); [|done]. injection Hw as <-. simpl.
      by rewrite lookup_insert_eq.
  - destruct x as [v|a|a]; simpl in Hw.
    + destruct (vars m !! v); [|done]. injection Hw as <-.
      destruct y as [w|b|b]; simpl; [|done..].
      rewrite lookup_insert_ne; [done|congruence].
    + destruct (nodes m !! a) as [n|] eqn:Hn; [|done]. injection Hw as <-.
      destruct y as [w|b|b]; simpl; [done|..].
      * rewrite lookup_insert_ne; [done|congruence].
      * destruct (decide (a = b)) as [->|].
        -- by rewrite lookup_insert_eq, Hn.
        -- by rewrite lookup_insert_ne.
    + destruct (nodes m !! a) as [n|] eqn:Hn; [|done]. injection Hw as <-.
      destruct y as [w|b|b]; simpl; [done|..].
      * destruct (decide (a = b)) as [->|].
        -- by rewrite lookup_insert_eq, Hn.
        -- by rewrite lookup_insert_ne.
      * rewrite lookup_insert_ne; [done|congruence].
Qed.

Lemma read_write_eq m x p m' : write m x p = Some m' → read m' x = Some p.
Proof. intros Hw. rewrite (read_write _ _ _ _ x Hw). by case_decide. Qed.

Lemma read_write_ne m x p m' y :
  write m x p = Some m' → x ≠ y → read m' y = read m y.
Proof. intros Hw ?. rewrite (read_write _ _ _ _ y Hw). by case_decide. Qed.

Lemma write_is_Some m x p : is_Some (read m x) → is_Some (write m x p).
Proof.
  destruct x as [v|a|a]; simpl.
  - intros [? ->]; eauto.
  - rewrite fmap_is_Some. intros [? ->]; eauto.
  - rewrite fmap_is_Some. intros [? ->]; eauto.
Qed.

Lemma write_nodes m x p m' a :
  write m x p = Some m' →
  nodes m' !! a = nodes m !! a ∨
  ∃ n q, nodes m !! a = Some n ∧
    (nodes m' !! a = Some (set_left q n) ∨ nodes m' !! a = Some (set_right q n)).
Proof.
  destruct x as [v|b|b]; simpl; intros Hw.
  - destruct (vars m !! v); [|done]. injection Hw as <-. by left.
  - destruct (nodes m !! b) as [n|] eqn:Hn; [|done]. injection Hw as <-. simpl.
    destruct (decide (b = a)) as [->|].
    + right. exists n, p. rewrite lookup_insert_eq. eauto.
    + left. by rewrite lookup_insert_ne.
  - destruct (nodes m !! b) as [n|] eqn:Hn; [|done]. injection Hw as <-. simpl.
    destruct (decide (b = a)) as [->|].
    + right. exists n, p. rewrite lookup_insert_eq. eauto.
    + left. by rewrite lookup_insert_ne.
Qed.

Lemma pay_write m x p m' a : write m x p = Some m' → pay m' a = pay m a.
Proof.
  intros Hw. unfold pay.
  destruct (write_nodes _ _ _ _ a Hw) as [->|(n & q & -> & [->| ->])]; done.
Qed.

Global Arguments read : simpl never.
Global Arguments write : simpl never.
Global Arguments pay : simpl never.

(** ** The data members are never written *)

Lemma pay_split fuel : ∀ m c k l r m' a,
  split fuel m c k l r = Some m' → pay m' a = pay m a.
Proof.
  induction fuel as [|f IH]; intros m c k l r m' a Hs; [done|].
  simpl in Hs.
  destruct (read m c) as [[b|]|]; simpl in Hs; [| |done].
  - destruct (nodes m !! b) as [n|]; simpl in Hs; [|done].
    destruct (k <? tree_key n).
    + destruct (split f m (Left b) k l (Left b)) as [m1|] eqn:H1;
        simpl in Hs; [|done].
      destruct (read m1 c) as [v|]; simpl in Hs; [|done].
      rewrite (pay_write _ _ _ _ a Hs). eauto.
    + destruct (split f m (Right b) k (Right b) r) as [m1|] eqn:H1;
        simpl in Hs; [|done].
      destruct (read m1 c) as [v|]; simpl in Hs; [|done].
      rewrite (pay_write _ _ _ _ a Hs). eauto.
  - destruct (write m r None) as [m1|] eqn:H1; simpl in Hs; [|done].
    destruct (read m1 r) as [v|]; simpl in Hs; [|done].
    rewrite (pay_write _ _ _ _ a Hs). eapply pay_write, H1.
Qed.

Lemma pay_insert fuel : ∀ m c n m' a,
  insert fuel m c n = Some m' → pay m' a = pay m a.
Proof.
  induction fuel as [|f IH]; intros m c n m' a Hi; [done|].
  simpl in Hi.
  destruct (read m c) as [[b|]|]; simpl in Hi; [| |done].
  - destruct (nodes m !! b) as [nb|]; simpl in Hi; [|done].
    destruct (nodes m !! n) as [nn|]; simpl in Hi; [|done].
    destruct (heap_key nn <? heap_key nb); [eauto|].
    destruct (split f m c (tree_key nn) (Left n) (Right n)) as [m1|] eqn:H1;
      simpl in Hi; [|done].
    rewrite (pay_write _ _ _ _ a Hi). eapply pay_split, H1.
  - eapply pay_write, Hi.
Qed.

(** ** Representation lemmas *)

Lemma elem_of_cells x t :
  x ∈ cells t ↔ ∃ a, a ∈ addrs t ∧ (x = Left a ∨ x = Right a).
Proof.
  induction t as [|a k v hk l IHl r IHr]; simpl.
  - split; [by intros ?%elem_of_nil | by intros (? & ?%elem_of_nil & _)].
  - rewrite !elem_of_cons, elem_of_app, IHl, IHr. split.
    + intros [->|[->|[(b & ? & ?)|(b & ? & ?)]]].
      * exists a. set_solver.
      * exists a. set_solver.
      * exists b. set_solver.
      * exists b. set_solver.
    + intros (b & Hb & Hx). rewrite elem_of_cons, elem_of_app in Hb.
      destruct Hb as [->|[?|?]]; [naive_solver|eauto 10..].
Qed.

Lemma Left_cells a t : Left a ∈ cells t ↔ a ∈ addrs t.
Proof. rewrite elem_of_cells. naive_solver. Qed.

Lemma Right_cells a t : Right a ∈ cells t ↔ a ∈ addrs t.
Proof. rewrite elem_of_cells. naive_solver. Qed.

(** A tree only depends on the cells and data members of its nodes. *)
Lemma repr_ext_on m m' t : ∀ p,
  (∀ a, a ∈ addrs t → pay m' a = pay m a) →
  (∀ y, y ∈ cells t → read m' y = read m y) →
  repr m p t → repr m' p t.
Proof.
  induction t as [|a k v hk l IHl r IHr]; intros p Hpay Hrd; simpl; [done|].
  intros (-> & Hp & (pl & Hl & Hrl) & (pr & Hr & Hrr)).
  split; [done|]. split; [rewrite Hpay; [done|simpl; set_solver]|]. split.
  - exists pl. split; [rewrite Hrd; [done|simpl; set_solver]|].
    apply IHl; [| |done].
    + intros b Hb. apply Hpay. simpl. set_solver.
    + intros y Hy. apply Hrd. simpl. set_solver.
  - exists pr. split; [rewrite Hrd; [done|simpl; set_solver]|].
    apply IHr; [| |done].
    + intros b Hb. apply Hpay. simpl. set_solver.
    + intros y Hy. apply Hrd. simpl. set_solver.
Qed.

Lemma repr_ext m m' t p :
  (∀ a, pay m' a = pay m a) →
  (∀ y, y ∈ cells t → read m' y = read m y) →
  repr m p t → repr m' p t.
Proof. intros Hpay. apply repr_ext_on. auto. Qed.

Lemma repr_inj m t : ∀ p t', repr m p t → repr m p t' → t = t'.
Proof.
  induction t as [|a k v hk l IHl r IHr]; intros p [|a' k' v' hk' l' r']; simpl.
  - done.
  - intros -> (? & _). done.
  - intros (-> & _) ?. done.
  - intros (-> & Hp & (pl & Hl & Hrl) & (pr & Hr & Hrr))
           (? & Hp' & (pl' & Hl' & Hrl') & (pr' & Hr' & Hrr')).
    simplify_eq. f_equal; eauto.
Qed.

Lemma cells_cut_left k t x : x ∈ cells (cut_left k t) → x ∈ cells t.
Proof.
  induction t as [|a key v hk l IHl r IHr]; simpl; [done|].
  destruct (k <? key); simpl; [|by intros ?%elem_of_nil].
  set_solver.
Qed.

Lemma cells_cut_right k t x : x ∈ cells (cut_right k t) → x ∈ cells t.
Proof.
  induction t as [|a key v hk l IHl r IHr]; simpl; [done|].
  destruct (k <? key); simpl; [by intros ?%elem_of_nil|].
  set_solver.
Qed.

Lemma pay_Some m a k v hk :
  pay m a = Some (k, v, hk) →
  ∃ n, nodes m !! a = Some n ∧ tree_key n = k ∧ payload n = v ∧ heap_key n = hk.
Proof.
  unfold pay. destruct (nodes m !! a) as [n|]; simpl; [|done].
  intros [= <- <- <-]. eauto.
Qed.

Lemma cells_T_facts a k v hk l r :
  NoDup (addrs (T a k v hk l r)) →
  NoDup (addrs l) ∧ NoDup (addrs r) ∧
  (Left a ∉ cells l) ∧ (Left a ∉ cells r) ∧
  (Right a ∉ cells l) ∧ (Right a ∉ cells r) ∧
  (∀ y, y ∈ cells l → y ∉ cells r).
Proof.
  simpl. rewrite NoDup_cons, NoDup_app, elem_of_app.
  intros (Ha & Hl & Hlr & Hr).
  rewrite !Left_cells, !Right_cells. repeat split; try tauto.
  intros y. rewrite !elem_of_cells. naive_solver.
Qed.

(** ** What [split] does when [treap] aliases an out-parameter *)

(** A call whose [treap] is the same cell as [r] stores NULL in [l] and
    leaves [cut_left] in the shared cell; a call whose [treap] is the
    same cell as [l] stores NULL in [r] and leaves [cut_right]. *)
Lemma split_aliased k t : ∀ fuel m c o p,
  (depth t < fuel)%nat → read m c = Some p → repr m p t →
  NoDup (addrs t) → c ∉ cells t → o ∉ cells t → o ≠ c →
  is_Some (read m o) →
  (∃ m' p', split fuel m c k o c = Some m' ∧ read m' o = Some None ∧
     read m' c = Some p' ∧ repr m' p' (cut_left k t) ∧
     frame m m' (c :: o :: cells t)) ∧
  (∃ m' p', split fuel m c k c o = Some m' ∧ read m' o = Some None ∧
     read m' c = Some p' ∧ repr m' p' (cut_right k t) ∧
     frame m m' (c :: o :: cells t)).
Proof.
  induction t as [|a key v hk l IHl r IHr];
    intros fuel m c o p Hfuel Hc Hrep Hnd Hct Hot Hoc Ho.
  - simpl in Hrep. subst p. destruct fuel as [|f]; [simpl in Hfuel; lia|].
    split.
    + destruct (write_is_Some m c None) as [m1 H1]; [by rewrite Hc|].
      destruct (write_is_Some m1 o None) as [m2 H2].
      { by rewrite (read_write_ne _ _ _ _ _ H1). }
      exists m2, None. simpl. rewrite Hc. simpl. rewrite H1. simpl.
      rewrite (read_write_eq _ _ _ _ H1). simpl.
      split; [done|]. split; [by apply read_write_eq in H2|].
      split. { rewrite (read_write_ne _ _ _ _ _ H2) by done.
               by apply read_write_eq in H1. }
      split; [done|]. intros y Hy.
      rewrite (read_write_ne _ _ _ _ _ H2) by set_solver.
      rewrite (read_write_ne _ _ _ _ _ H1) by set_solver. done.
    + destruct (write_is_Some m o None) as [m1 H1]; [done|].
      destruct (write_is_Some m1 c None) as [m2 H2].
      { rewrite (read_write_ne _ _ _ _ _ H1) by done. by rewrite Hc. }
      exists m2, None. simpl. rewrite Hc. simpl. rewrite H1. simpl.
      rewrite (read_write_eq _ _ _ _ H1). simpl.
      split; [done|]. split.
      { rewrite (read_write_ne _ _ _ _ _ H2) by done.
        by apply read_write_eq in H1. }
      split; [by apply read_write_eq in H2|].
      split; [done|]. intros y Hy.
      rewrite (read_write_ne _ _ _ _ _ H2) by set_solver.
      rewrite (read_write_ne _ _ _ _ _ H1) by set_solver. done.
  - destruct (cells_T_facts _ _ _ _ _ _ Hnd)
      as (Hndl & Hndr & HLl & HLr & HRl & HRr & Hlr).
    simpl in Hrep.
    destruct Hrep as (-> & Hpay & (pl & Hl & Hrl) & (pr & Hr & Hrr)).
    destruct (pay_Some _ _ _ _ _ Hpay) as (n & Hn & Hkey & _).
    destruct fuel as [|f]; [simpl in Hfuel; lia|]. simpl in Hfuel.
    simpl in Hct, Hot.
    split.
    + simpl. rewrite Hc. simpl. rewrite Hn. simpl. rewrite Hkey.
      destruct (k <? key) eqn:Hk.
      * destruct (IHl f m (Left a) o pl) as [(m1 & p1 & Hs & Ho1 & Hc1 & Hr1 & Hf1) _];
          [lia|done|done|done|done|set_solver|set_solver|done|].
        rewrite Hs. simpl.
        assert (read m1 c = Some (Some a)) as Hc'.
        { rewrite Hf1; [done|set_solver]. }
        rewrite Hc'. simpl.
        destruct (write_is_Some m1 c (Some a)) as [m2 H2]; [by rewrite Hc'|].
        exists m2, (Some a). split; [done|].
        split. { by rewrite (read_write_ne _ _ _ _ _ H2). }
        split; [by apply read_write_eq in H2|].
        assert (∀ b, pay m2 b = pay m b) as Hpay2.
        { intros b. rewrite (pay_write _ _ _ _ b H2). eapply pay_split, Hs. }
        split.
        { simpl. split; [done|]. split; [by rewrite Hpay2|]. split.
          - exists p1. split.
            + rewrite (read_write_ne _ _ _ _ _ H2) by set_solver. done.
            + eapply (repr_ext m1); [| |done].
              * intros b. apply (pay_write _ _ _ _ b H2).
              * intros y Hy%cells_cut_left.
                apply (read_write_ne _ _ _ _ _ H2). set_solver.
          - exists pr. split.
            + rewrite (read_write_ne _ _ _ _ _ H2) by set_solver.
              rewrite Hf1; [done|]. set_solver.
            + eapply (repr_ext m); [done| |done].
              intros y Hy.
              rewrite (read_write_ne _ _ _ _ _ H2) by set_solver.
              apply Hf1. specialize (Hlr y). set_solver. }
        intros y Hy.
        rewrite (read_write_ne _ _ _ _ _ H2) by set_solver.
        apply Hf1. set_solver.
      * destruct (IHr f m (Right a) c pr) as [_ (m1 & p1 & Hs & Ho1 & Hc1 & Hr1 & Hf1)];
          [lia|done|done|done|done|set_solver|set_solver|by rewrite Hc|].
        rewrite Hs. simpl. rewrite Ho1. simpl.
        destruct (write_is_Some m1 o None) as [m2 H2].
        { rewrite Hf1; [done|set_solver]. }
        exists m2, None. split; [done|].
        split; [by apply read_write_eq in H2|].
        split. { by rewrite (read_write_ne _ _ _ _ _ H2). }
        split; [done|]. intros y Hy.
        rewrite (read_write_ne _ _ _ _ _ H2) by set_solver.
        apply Hf1. set_solver.
    + simpl. rewrite Hc. simpl. rewrite Hn. simpl. rewrite Hkey.
      destruct (k <? key) eqn:Hk.
      * destruct (IHl f m (Left a) c pl) as [(m1 & p1 & Hs & Ho1 & Hc1 & Hr1 & Hf1) _];
          [lia|done|done|done|done|set_solver|set_solver|by rewrite Hc|].
        rewrite Hs. simpl. rewrite Ho1. simpl.
        destruct (write_is_Some m1 o None) as [m2 H2].
        { rewrite Hf1; [done|set_solver]. }
        exists m2, None. split; [done|].
        split; [by apply read_write_eq in H2|].
        split. { by rewrite (read_write_ne _ _ _ _ _ H2). }
        split; [done|]. intros y Hy.
        rewrite (read_write_ne _ _ _ _ _ H2) by set_solver.
        apply Hf1. set_solver.
      * destruct (IHr f m (Right a) o pr) as [_ (m1 & p1 & Hs & Ho1 & Hc1 & Hr1 & Hf1)];
          [lia|done|done|done|done|set_solver|set_solver|done|].
        rewrite Hs. simpl.
        assert (read m1 c = Some (Some a)) as Hc'.
        { rewrite Hf1; [done|set_solver]. }
        rewrite Hc'. simpl.
        destruct (write_is_Some m1 c (Some a)) as [m2 H2]; [by rewrite Hc'|].
        exists m2, (Some a). split; [done|].
        split. { by rewrite (read_write_ne _ _ _ _ _ H2). }
        split; [by apply read_write_eq in H2|].
        assert (∀ b, pay m2 b = pay m b) as Hpay2.
        { intros b. rewrite (pay_write _ _ _ _ b H2). eapply pay_split, Hs. }
        split.
        { simpl. split; [done|]. split; [by rewrite Hpay2|]. split.
          - exists pl. split.
            + rewrite (read_write_ne _ _ _ _ _ H2) by set_solver.
              rewrite Hf1; [done|]. set_solver.
            + eapply (repr_ext m); [done| |done].
              intros y Hy.
              rewrite (read_write_ne _ _ _ _ _ H2) by set_solver.
              apply Hf1. specialize (Hlr y). set_solver.
          - exists p1. split.
            + rewrite (read_write_ne _ _ _ _ _ H2) by set_solver. done.
            + eapply (repr_ext m1); [| |done].
              * intros b. apply (pay_write _ _ _ _ b H2).
              * intros y Hy%cells_cut_right.
                apply (read_write_ne _ _ _ _ _ H2). set_solver. }
        intros y Hy.
        rewrite (read_write_ne _ _ _ _ _ H2) by set_solver.
        apply Hf1. set_solver.
Qed.

(** ** What an outermost call of [split] does *)

Lemma cells_split_tree t k x :
  x ∈ cells (split_tree t k).1 ∨ x ∈ cells (split_tree t k).2 → x ∈ cells t.
Proof.
  destruct t as [|a key v hk l r]; simpl; [tauto|].
  destruct (k <? key); simpl.
  - pose proof (cells_cut_left k l x). set_solver.
  - pose proof (cells_cut_right k r x). set_solver.
Qed.

Lemma split_refines k t fuel m c l r :
  (depth t < fuel)%nat → tree_at m c t → NoDup (addrs t) →
  c ∉ cells t → l ∉ cells t → r ∉ cells t → l ≠ r → c ≠ l → c ≠ r →
  is_Some (read m l) → is_Some (read m r) →
  ∃ m', split fuel m c k l r = Some m' ∧
    tree_at m' l (split_tree t k).1 ∧ tree_at m' r (split_tree t k).2 ∧
    frame m m' (l :: r :: cells t).
Proof.
  intros Hfuel (p & Hc & Hrep) Hnd Hct Hlt Hrt Hlr Hcl Hcr Hl Hr.
  destruct fuel as [|f]; [lia|].
  destruct t as [|a key v hk lt rt].
  - simpl in Hrep. subst p.
    destruct (write_is_Some m r None) as [m1 H1]; [done|].
    destruct (write_is_Some m1 l None) as [m2 H2].
    { by rewrite (read_write_ne _ _ _ _ _ H1). }
    exists m2. simpl. rewrite Hc. simpl. rewrite H1. simpl.
    rewrite (read_write_eq _ _ _ _ H1). simpl. split; [done|].
    split. { exists None. by apply read_write_eq in H2. }
    split. { exists None. rewrite (read_write_ne _ _ _ _ _ H2) by done.
             by apply read_write_eq in H1. }
    intros y Hy.
    rewrite (read_write_ne _ _ _ _ _ H2) by set_solver.
    rewrite (read_write_ne _ _ _ _ _ H1) by set_solver. done.
  - destruct (cells_T_facts _ _ _ _ _ _ Hnd)
      as (Hndl & Hndr & HLl & HLr & HRl & HRr & Hdisj).
    simpl in Hrep.
    destruct Hrep as (-> & Hpay & (pl & Hpl & Hrl) & (pr & Hpr & Hrr)).
    destruct (pay_Some _ _ _ _ _ Hpay) as (n & Hn & Hkey & _).
    simpl in Hfuel, Hct, Hlt, Hrt.
    simpl. rewrite Hc. simpl. rewrite Hn. simpl. rewrite Hkey.
    destruct (k <? key) eqn:Hk; simpl.
    + destruct (split_aliased k lt f m (Left a) l pl)
        as [(m1 & p1 & Hs & Ho1 & Hc1 & Hr1 & Hf1) _];
        [lia|done|done|done|done|set_solver|set_solver|done|].
      rewrite Hs. simpl.
      assert (read m1 c = Some (Some a)) as Hc'.
      { rewrite Hf1; [done|set_solver]. }
      rewrite Hc'. simpl.
      destruct (write_is_Some m1 r (Some a)) as [m2 H2].
      { rewrite Hf1; [done|set_solver]. }
      exists m2. split; [done|].
      assert (∀ b, pay m2 b = pay m b) as Hpay2.
      { intros b. rewrite (pay_write _ _ _ _ b H2). eapply pay_split, Hs. }
      split. { exists None. by rewrite (read_write_ne _ _ _ _ _ H2). }
      split.
      { exists (Some a). split; [by apply read_write_eq in H2|].
        simpl. split; [done|]. split; [by rewrite Hpay2|]. split.
        - exists p1. split.
          + rewrite (read_write_ne _ _ _ _ _ H2) by set_solver. done.
          + eapply (repr_ext m1); [| |done].
            * intros b. apply (pay_write _ _ _ _ b H2).
            * intros y Hy%cells_cut_left.
              apply (read_write_ne _ _ _ _ _ H2). set_solver.
        - exists pr. split.
          + rewrite (read_write_ne _ _ _ _ _ H2) by set_solver.
            rewrite Hf1; [done|]. set_solver.
          + eapply (repr_ext m); [done| |done].
            intros y Hy.
            rewrite (read_write_ne _ _ _ _ _ H2) by set_solver.
            apply Hf1. specialize (Hdisj y). set_solver. }
      intros y Hy.
      rewrite (read_write_ne _ _ _ _ _ H2) by set_solver.
      apply Hf1. set_solver.
    + destruct (split_aliased k rt f m (Right a) r pr)
        as [_ (m1 & p1 & Hs & Ho1 & Hc1 & Hr1 & Hf1)];
        [lia|done|done|done|done|set_solver|set_solver|done|].
      rewrite Hs. simpl.
      assert (read m1 c = Some (Some a)) as Hc'.
      { rewrite Hf1; [done|set_solver]. }
      rewrite Hc'. simpl.
      destruct (write_is_Some m1 l (Some a)) as [m2 H2].
      { rewrite Hf1; [done|set_solver]. }
      exists m2. split; [done|].
      assert (∀ b, pay m2 b = pay m b) as Hpay2.
      { intros b. rewrite (pay_write _ _ _ _ b H2). eapply pay_split, Hs. }
      split.
      { exists (Some a). split; [by apply read_write_eq in H2|].
        simpl. split; [done|]. split; [by rewrite Hpay2|]. split.
        - exists pl. split.
          + rewrite (read_write_ne _ _ _ _ _ H2) by set_solver.
            rewrite Hf1; [done|]. set_solver.
          + eapply (repr_ext m); [done| |done].
            intros y Hy.
            rewrite (read_write_ne _ _ _ _ _ H2) by set_solver.
            apply Hf1. specialize (Hdisj y). set_solver.
        - exists p1. split.
          + rewrite (read_write_ne _ _ _ _ _ H2) by set_solver. done.
          + eapply (repr_ext m1); [| |done].
            * intros b. apply (pay_write _ _ _ _ b H2).
            * intros y Hy%cells_cut_right.
              apply (read_write_ne _ _ _ _ _ H2). set_solver. }
      split. { exists None. by rewrite (read_write_ne _ _ _ _ _ H2). }
      intros y Hy.
      rewrite (read_write_ne _ _ _ _ _ H2) by set_solver.
      apply Hf1. set_solver.
Qed.

(** ** What [insert] does *)

Lemma insert_refines t : ∀ fuel m c n k v hk,
  (S (depth t) < fuel)%nat → tree_at m c t → NoDup (addrs t) →
  c ∉ cells t → n ∉ addrs t → c ≠ Left n → c ≠ Right n →
  repr m (Some n) (T n k v hk E E) →
  ∃ m', insert fuel m c n = Some m' ∧
    tree_at m' c (insert_tree t n k v hk) ∧
    frame m m' (c :: Left n :: Right n :: cells t).
Proof.
  induction t as [|a key val prio l IHl r IHr];
    intros fuel m c n k v hk Hfuel (p & Hc & Hrep) Hnd Hct Hnt HcL HcR Hnew.
  - simpl in Hrep. subst p. destruct fuel as [|f]; [lia|].
    destruct (write_is_Some m c (Some n)) as [m1 H1]; [by rewrite Hc|].
    exists m1. simpl. rewrite Hc. simpl. split; [done|]. split.
    + exists (Some n). split; [by apply read_write_eq in H1|].
      eapply (repr_ext m); [|simpl|done].
      * intros b. apply (pay_write _ _ _ _ b H1).
      * intros y Hy. apply (read_write_ne _ _ _ _ _ H1). set_solver.
    + intros y Hy. apply (read_write_ne _ _ _ _ _ H1). set_solver.
  - destruct (cells_T_facts _ _ _ _ _ _ Hnd)
      as (Hndl & Hndr & HLl & HLr & HRl & HRr & Hdisj).
    pose proof Hrep as Hrep0. simpl in Hrep.
    destruct Hrep as (-> & Hpay & (pl & Hpl & Hrl) & (pr & Hpr & Hrr)).
    destruct (pay_Some _ _ _ _ _ Hpay) as (na & Hna & Hkey & _ & Hprio).
    pose proof Hnew as Hnew0. simpl in Hnew.
    destruct Hnew as (_ & Hpayn & (? & HnL & ->) & (? & HnR & ->)).
    destruct (pay_Some _ _ _ _ _ Hpayn) as (nn & Hnn & Hnk & _ & Hnhk).
    destruct fuel as [|f]; [lia|]. simpl in Hfuel, Hct, Hnt.
    assert (a ≠ n) as Han by set_solver.
    assert ((n ∉ addrs l) ∧ (n ∉ addrs r)) as [Hnl Hnr] by set_solver.
    assert ((Left n ∉ cells l) ∧ (Right n ∉ cells l) ∧
            (Left n ∉ cells r) ∧ (Right n ∉ cells r))
      as (HnLl & HnRl & HnLr & HnRr).
    { by rewrite !Left_cells, !Right_cells. }
    simpl. rewrite Hc. simpl. rewrite Hna. simpl. rewrite Hnn. simpl.
    rewrite Hkey, Hprio, Hnk, Hnhk.
    destruct (hk <? prio) eqn:Hhk; [destruct (k <? key) eqn:Hk|].
    + destruct (IHl f m (Left a) n k v hk) as (m1 & Hi & (p1 & Hc1 & Hr1) & Hf1);
        [lia|by exists pl|done|done|done|congruence|congruence|done|].
      exists m1. split; [done|].
      assert (∀ b, pay m1 b = pay m b) as Hpay1.
      { intros b. eapply pay_insert, Hi. }
      split.
      { exists (Some a). split. { rewrite Hf1; [done|set_solver]. }
        simpl. split; [done|]. split; [by rewrite Hpay1|]. split.
        - by exists p1.
        - exists pr. split. { rewrite Hf1; [done|set_solver]. }
          eapply (repr_ext m); [done| |done].
          intros y Hy. apply Hf1. specialize (Hdisj y). set_solver. }
      intros y Hy. apply Hf1. set_solver.
    + destruct (IHr f m (Right a) n k v hk) as (m1 & Hi & (p1 & Hc1 & Hr1) & Hf1);
        [lia|by exists pr|done|done|done|congruence|congruence|done|].
      exists m1. split; [done|].
      assert (∀ b, pay m1 b = pay m b) as Hpay1.
      { intros b. eapply pay_insert, Hi. }
      split.
      { exists (Some a). split. { rewrite Hf1; [done|set_solver]. }
        simpl. split; [done|]. split; [by rewrite Hpay1|]. split.
        - exists pl. split. { rewrite Hf1; [done|set_solver]. }
          eapply (repr_ext m); [done| |done].
          intros y Hy. apply Hf1. specialize (Hdisj y). set_solver.
        - by exists p1. }
      intros y Hy. apply Hf1. set_solver.
    + destruct (split_refines k (T a key val prio l r) f m c (Left n) (Right n))
        as (m1 & Hs & (ql & Hql & Hrl1) & (qr & Hqr & Hrr1) & Hf1);
        [simpl; lia|by exists (Some a)|done|done|
         rewrite Left_cells; simpl; set_solver|
         rewrite Right_cells; simpl; set_solver|
         done|done|done|by rewrite HnL|by rewrite HnR|].
      rewrite Hs. simpl.
      assert (read m1 c = Some (Some a)) as Hc'.
      { rewrite Hf1; [done|simpl; set_solver]. }
      destruct (write_is_Some m1 c (Some n)) as [m2 H2]; [by rewrite Hc'|].
      exists m2. split; [done|].
      assert (∀ b, pay m2 b = pay m b) as Hpay2.
      { intros b. rewrite (pay_write _ _ _ _ b H2). eapply pay_split, Hs. }
      split.
      { exists (Some n). split; [by apply read_write_eq in H2|].
        split; [done|]. split; [by rewrite Hpay2|]. split.
        - exists ql. split.
          + by rewrite (read_write_ne _ _ _ _ _ H2).
          + eapply (repr_ext m1); [| |done].
            * intros b. apply (pay_write _ _ _ _ b H2).
            * intros y Hy. apply (read_write_ne _ _ _ _ _ H2).
              intros <-. apply Hct.
              apply (cells_split_tree (T a key val prio l r) k). by left.
        - exists qr. split.
          + by rewrite (read_write_ne _ _ _ _ _ H2).
          + eapply (repr_ext m1); [| |done].
            * intros b. apply (pay_write _ _ _ _ b H2).
            * intros y Hy. apply (read_write_ne _ _ _ _ _ H2).
              intros <-. apply Hct.
              apply (cells_split_tree (T a key val prio l r) k). by right. }
      intros y Hy.
      rewrite (read_write_ne _ _ _ _ _ H2) by set_solver.
      apply Hf1. simpl. set_solver.
Qed.

(** ** Keys, order and priorities of the resulting trees *)

Lemma keys_cut_left k t : keys (cut_left k t) ⊆+ keys t.
Proof.
  induction t as [|a key v hk l IHl r IHr]; simpl; [done|].
  destruct (k <? key); simpl; [|apply submseteq_nil_l].
  by apply submseteq_app.
Qed.

Lemma keys_cut_right k t : keys (cut_right k t) ⊆+ keys t.
Proof.
  induction t as [|a key v hk l IHl r IHr]; simpl; [done|].
  destruct (k <? key); simpl; [apply submseteq_nil_l|].
  apply submseteq_app; [done|]. by apply submseteq_skip.
Qed.

Lemma keys_split_tree t k :
  keys (split_tree t k).1 ++ keys (split_tree t k).2 ⊆+ keys t.
Proof.
  destruct t as [|a key v hk l r]; simpl; [done|].
  destruct (k <? key); simpl.
  - apply submseteq_app; [apply keys_cut_left|done].
  - rewrite app_nil_r. apply submseteq_app; [done|].
    apply submseteq_skip, keys_cut_right.
Qed.

Lemma Forall_submseteq {A} (P : A → Prop) (xs ys : list A) :
  xs ⊆+ ys → Forall P ys → Forall P xs.
Proof.
  rewrite !Forall_forall. intros Hsub HP x Hx.
  eapply HP, elem_of_submseteq; eauto.
Qed.

Lemma above_cut_left k t : bst t → Forall (λ x, k < x) (keys (cut_left k t)).
Proof.
  induction t as [|a key v hk l IHl r IHr]; simpl; [constructor|].
  intros (Hl & Hr & Hbl & Hbr).
  destruct (k <? key) eqn:Hk; simpl; [|constructor].
  apply Z.ltb_lt in Hk.
  rewrite Forall_app, Forall_cons. split; [auto|]. split; [done|].
  eapply Forall_impl; [exact Hr|]. simpl. lia.
Qed.

Lemma below_cut_right k t : bst t → Forall (λ x, x ≤ k) (keys (cut_right k t)).
Proof.
  induction t as [|a key v hk l IHl r IHr]; simpl; [constructor|].
  intros (Hl & Hr & Hbl & Hbr).
  destruct (k <? key) eqn:Hk; simpl; [constructor|].
  apply Z.ltb_ge in Hk.
  rewrite Forall_app, Forall_cons. split; [|auto].
  eapply Forall_impl; [exact Hl|]. simpl. lia.
Qed.

Lemma bounds_split_tree t k :
  bst t →
  Forall (λ x, x ≤ k) (keys (split_tree t k).1) ∧
  Forall (λ x, k < x) (keys (split_tree t k).2).
Proof.
  destruct t as [|a key v hk l r]; simpl; [by split; constructor|].
  intros (Hl & Hr & Hbl & Hbr).
  destruct (k <? key) eqn:Hk; simpl.
  - apply Z.ltb_lt in Hk. split; [constructor|].
    rewrite Forall_app, Forall_cons.
    split; [by apply above_cut_left|]. split; [done|].
    eapply Forall_impl; [exact Hr|]. simpl. lia.
  - apply Z.ltb_ge in Hk. split; [|constructor].
    rewrite Forall_app, Forall_cons.
    split; [|split; [done|by apply below_cut_right]].
    eapply Forall_impl; [exact Hl|]. simpl. lia.
Qed.

Lemma bst_cut_left k t : bst t → bst (cut_left k t).
Proof.
  induction t as [|a key v hk l IHl r IHr]; simpl; [done|].
  intros (Hl & Hr & Hbl & Hbr). destruct (k <? key); simpl; [|done].
  split; [|auto]. eapply Forall_submseteq; [apply keys_cut_left|done].
Qed.

Lemma bst_cut_right k t : bst t → bst (cut_right k t).
Proof.
  induction t as [|a key v hk l IHl r IHr]; simpl; [done|].
  intros (Hl & Hr & Hbl & Hbr). destruct (k <? key); simpl; [done|].
  split; [done|]. split; [|auto].
  eapply Forall_submseteq; [apply keys_cut_right|done].
Qed.

Lemma bst_split_tree t k :
  bst t → bst (split_tree t k).1 ∧ bst (split_tree t k).2.
Proof.
  destruct t as [|a key v hk l r]; simpl; [done|].
  intros (Hl & Hr & Hbl & Hbr). destruct (k <? key); simpl.
  - split; [done|]. split; [|auto using bst_cut_left].
    eapply Forall_submseteq; [apply keys_cut_left|done].
  - split; [|done]. split; [done|]. split; [|auto using bst_cut_right].
    eapply Forall_submseteq; [apply keys_cut_right|done].
Qed.

Lemma root_le_cut_left hk k t : root_le hk t → root_le hk (cut_left k t).
Proof. destruct t as [|a key v p l r]; simpl; [done|]. by destruct (k <? key). Qed.

Lemma root_le_cut_right hk k t : root_le hk t → root_le hk (cut_right k t).
Proof. destruct t as [|a key v p l r]; simpl; [done|]. by destruct (k <? key). Qed.

Lemma heap_ord_cut_left k t : heap_ord t → heap_ord (cut_left k t).
Proof.
  induction t as [|a key v hk l IHl r IHr]; simpl; [done|].
  intros (Hl & Hr & Hhl & Hhr). destruct (k <? key); simpl; [|done].
  auto using root_le_cut_left.
Qed.

Lemma heap_ord_cut_right k t : heap_ord t → heap_ord (cut_right k t).
Proof.
  induction t as [|a key v hk l IHl r IHr]; simpl; [done|].
  intros (Hl & Hr & Hhl & Hhr). destruct (k <? key); simpl; [done|].
  auto using root_le_cut_right.
Qed.

Lemma root_le_split_tree hk t k :
  root_le hk t →
  root_le hk (split_tree t k).1 ∧ root_le hk (split_tree t k).2.
Proof. destruct t as [|a key v p l r]; simpl; [done|]. by destruct (k <? key). Qed.

Lemma heap_ord_split_tree t k :
  heap_ord t → heap_ord (split_tree t k).1 ∧ heap_ord (split_tree t k).2.
Proof.
  destruct t as [|a key v hk l r]; simpl; [done|].
  intros (Hl & Hr & Hhl & Hhr). destruct (k <? key); simpl.
  - split; [done|]. auto using root_le_cut_left, heap_ord_cut_left.
  - split; [|done]. auto using root_le_cut_right, heap_ord_cut_right.
Qed.

Lemma keys_insert_tree t n k v hk :
  keys (insert_tree t n k v hk) ⊆+ k :: keys t.
Proof.
  induction t as [|a key val prio l IHl r IHr]; simpl; [done|].
  destruct (hk <? prio); [destruct (k <? key)|]; simpl.
  - change (k :: keys l ++ key :: keys r) with ((k :: keys l) ++ key :: keys r).
    by apply submseteq_app.
  - trans (keys l ++ key :: k :: keys r).
    + apply submseteq_app; [done|]. by apply submseteq_skip.
    + apply Permutation_submseteq.
      rewrite (Permutation_middle (keys l) (key :: keys r) k).
      apply Permutation_app_head, perm_swap.
  - pose proof (keys_split_tree (T a key val prio l r) k) as Hsub.
    simpl in Hsub. revert Hsub.
    generalize ((if k <? key
       then (E, T a key val prio (cut_left k l) r)
       else (T a key val prio l (cut_right k r), E))). intros [L R]. simpl.
    intros Hsub. trans (k :: keys L ++ keys R).
    + apply Permutation_submseteq. symmetry. apply Permutation_middle.
    + by apply submseteq_skip.
Qed.

Lemma bst_insert_tree t n k v hk :
  bst t → k ∉ keys t → bst (insert_tree t n k v hk).
Proof.
  induction t as [|a key val prio l IHl r IHr]; simpl.
  { intros _ _. repeat split; constructor. }
  intros (Hl & Hr & Hbl & Hbr) Hk.
  rewrite elem_of_app, elem_of_cons in Hk.
  destruct (hk <? prio); [destruct (k <? key) eqn:Hlt|]; simpl.
  - apply Z.ltb_lt in Hlt. split; [|split; [done|]; split; [|done]].
    + eapply Forall_submseteq; [apply keys_insert_tree|].
      by apply Forall_cons.
    + apply IHl; tauto.
  - apply Z.ltb_ge in Hlt. split; [done|]. split; [|split; [done|]].
    + eapply Forall_submseteq; [apply keys_insert_tree|].
      apply Forall_cons. split; [|done]. assert (k ≠ key) by tauto. lia.
    + apply IHr; tauto.
  - pose proof (bounds_split_tree (T a key val prio l r) k) as Hb.
    pose proof (bst_split_tree (T a key val prio l r) k) as Hbst.
    pose proof (keys_split_tree (T a key val prio l r) k) as Hsub.
    simpl in Hb, Hbst, Hsub. revert Hb Hbst Hsub.
    generalize ((if k <? key
       then (E, T a key val prio (cut_left k l) r)
       else (T a key val prio l (cut_right k r), E))). intros [L R]. simpl.
    intros Hb Hbst Hsub.
    destruct Hb as [HL HR]; [done|]. destruct Hbst as [HbL HbR]; [done|].
    split; [|done].
    rewrite Forall_forall in *. intros x Hx.
    assert (x ≠ k); [|specialize (HL x Hx); simpl in HL; lia].
    intros ->. apply Hk. rewrite <- elem_of_cons, <- elem_of_app.
    eapply elem_of_submseteq; [|exact Hsub]. set_solver.
Qed.

Lemma root_le_insert_tree p t n k v hk :
  root_le p t → hk ≤ p → root_le p (insert_tree t n k v hk).
Proof.
  destruct t as [|a key val prio l r]; simpl; [done|].
  intros ??. by destruct (hk <? prio); [destruct (k <? key)|].
Qed.

Lemma heap_ord_insert_tree t n k v hk :
  heap_ord t → heap_ord (insert_tree t n k v hk).
Proof.
  induction t as [|a key val prio l IHl r IHr]; simpl; [done|].
  intros (Hl & Hr & Hhl & Hhr).
  destruct (hk <? prio) eqn:Hp; [destruct (k <? key)|]; simpl.
  - apply Z.ltb_lt in Hp.
    split; [apply root_le_insert_tree; [done|lia]|]. auto.
  - apply Z.ltb_lt in Hp. split; [done|].
    split; [apply root_le_insert_tree; [done|lia]|]. auto.
  - apply Z.ltb_ge in Hp.
    pose proof (root_le_split_tree hk (T a key val prio l r) k) as Hrt.
    pose proof (heap_ord_split_tree (T a key val prio l r) k) as Hho.
    simpl in Hrt, Hho. revert Hrt Hho.
    generalize ((if k <? key
       then (E, T a key val prio (cut_left k l) r)
       else (T a key val prio l (cut_right k r), E))). intros [L R]. simpl.
    intros Hrt Hho. destruct Hrt; [done|]. destruct Hho; [done|]. done.
Qed.

Lemma NoDup_submseteq_inv {A} (xs ys : list A) :
  xs ⊆+ ys → NoDup ys → NoDup xs.
Proof.
  intros (k & Hk)%submseteq_Permutation. rewrite Hk, NoDup_app. tauto.
Qed.

Lemma addrs_cut_left k t : addrs (cut_left k t) ⊆+ addrs t.
Proof.
  induction t as [|a key v hk l IHl r IHr]; simpl; [done|].
  destruct (k <? key); simpl; [|apply submseteq_nil_l].
  apply submseteq_skip. by apply submseteq_app.
Qed.

Lemma addrs_cut_right k t : addrs (cut_right k t) ⊆+ addrs t.
Proof.
  induction t as [|a key v hk l IHl r IHr]; simpl; [done|].
  destruct (k <? key); simpl; [apply submseteq_nil_l|].
  apply submseteq_skip. by apply submseteq_app.
Qed.

Lemma addrs_split_tree t k :
  addrs (split_tree t k).1 ++ addrs (split_tree t k).2 ⊆+ addrs t.
Proof.
  destruct t as [|a key v hk l r]; simpl; [done|].
  destruct (k <? key); simpl.
  - apply submseteq_skip, submseteq_app; [apply addrs_cut_left|done].
  - rewrite app_nil_r.
    apply submseteq_skip, submseteq_app; [done|apply addrs_cut_right].
Qed.

Lemma addrs_insert_tree t n k v hk :
  addrs (insert_tree t n k v hk) ⊆+ n :: addrs t.
Proof.
  induction t as [|a key val prio l IHl r IHr]; simpl; [done|].
  destruct (hk <? prio); [destruct (k <? key)|]; simpl.
  - trans (a :: (n :: addrs l) ++ addrs r).
    + apply submseteq_skip. by apply submseteq_app.
    + apply Permutation_submseteq, perm_swap.
  - trans (a :: addrs l ++ n :: addrs r).
    + apply submseteq_skip. by apply submseteq_app.
    + apply Permutation_submseteq.
      rewrite <- (Permutation_middle (addrs l) (addrs r) n). apply perm_swap.
  - pose proof (addrs_split_tree (T a key val prio l r) k) as Hsub.
    simpl in Hsub. revert Hsub.
    generalize ((if k <? key
       then (E, T a key val prio (cut_left k l) r)
       else (T a key val prio l (cut_right k r), E))). intros [L R]. simpl.
    intros Hsub. by apply submseteq_skip.
Qed.

(** ** Depth *)

Lemma depth_cut_left k t : (depth (cut_left k t) ≤ depth t)%nat.
Proof.
  induction t as [|a key v hk l IHl r IHr]; simpl; [done|].
  destruct (k <? key); simpl; lia.
Qed.

Lemma depth_cut_right k t : (depth (cut_right k t) ≤ depth t)%nat.
Proof.
  induction t as [|a key v hk l IHl r IHr]; simpl; [done|].
  destruct (k <? key); simpl; lia.
Qed.

Lemma depth_split_tree t k :
  (depth (split_tree t k).1 ≤ depth t)%nat ∧
  (depth (split_tree t k).2 ≤ depth t)%nat.
Proof.
  destruct t as [|a key v hk l r]; simpl; [done|].
  pose proof (depth_cut_left k l). pose proof (depth_cut_right k r).
  destruct (k <? key); simpl; lia.
Qed.

Lemma depth_insert_tree t n k v hk :
  (1 ≤ depth (insert_tree t n k v hk) ≤ S (depth t))%nat.
Proof.
  induction t as [|a key val prio l IHl r IHr]; simpl; [lia|].
  destruct (hk <? prio); [destruct (k <? key)|]; simpl; [lia..|].
  pose proof (depth_split_tree (T a key val prio l r) k) as Hd.
  simpl in Hd. revert Hd.
  generalize ((if k <? key
     then (E, T a key val prio (cut_left k l) r)
     else (T a key val prio l (cut_right k r), E))). intros [L R]. simpl. lia.
Qed.

Lemma height_spec_depth t : height_spec t = Z.of_nat (depth t).
Proof. induction t as [|a k v hk l IHl r IHr]; simpl; lia. Qed.

Lemma depth_le_addrs t : (depth t ≤ length (addrs t))%nat.
Proof.
  induction t as [|a k v hk l IHl r IHr]; simpl; [done|].
  rewrite length_app. lia.
Qed.

Lemma length_keys_addrs t : length (keys t) = length (addrs t).
Proof.
  induction t as [|a k v hk l IHl r IHr]; simpl; [done|].
  rewrite !length_app. simpl. lia.
Qed.

(** ** Pointers are 64 bits wide *)

Lemma max_first (xs : list positive) :
  xs ≠ [] → ∃ mx rest, xs ≡ₚ mx :: rest ∧ Forall (λ a, (a ≤ mx)%positive) rest.
Proof.
  induction xs as [|x xs IH]; [done|]. intros _.
  destruct xs as [|y ys].
  - exists x, []. split; [done|constructor].
  - destruct IH as (mx & rest & Hp & Hle); [done|].
    destruct (decide (x ≤ mx)%positive) as [Hx|Hx].
    + exists mx, (x :: rest). split.
      * rewrite Hp. apply perm_swap.
      * by constructor.
    + exists x, (mx :: rest). split; [by rewrite Hp|].
      constructor; [lia|]. eapply Forall_impl; [exact Hle|]. simpl. lia.
Qed.

(** Fewer than [n] distinct positive numbers lie below [n]. *)
Lemma NoDup_below (len : nat) : ∀ (xs : list positive) (n : Z),
  length xs = len → 1 ≤ n → NoDup xs → Forall (λ a, Z.pos a < n) xs →
  Z.of_nat (length xs) < n.
Proof.
  induction len as [|len IH]; intros xs n Hlen Hn Hnd Hlt.
  - rewrite Hlen. simpl. lia.
  - destruct (max_first xs) as (mx & rest & Hp & Hle).
    { intros ->. done. }
    rewrite Hp in Hlen, Hnd, Hlt |- *. simpl in Hlen.
    apply NoDup_cons in Hnd as [Hmx Hnd]. apply Forall_cons in Hlt as [Hmxn Hlt].
    specialize (IH rest (Z.pos mx)). simpl.
    assert (Z.of_nat (length rest) < Z.pos mx); [|lia].
    apply IH; [lia|lia|done|].
    rewrite Forall_forall in *. intros a Ha.
    assert (a ≠ mx) by (by intros ->). specialize (Hle a Ha). simpl in Hle. lia.
Qed.

Lemma height_spec_bound t :
  NoDup (addrs t) → ptr64 t → height_spec t < ulong_mod.
Proof.
  intros Hnd Hp. rewrite height_spec_depth.
  pose proof (depth_le_addrs t).
  assert (Z.of_nat (length (addrs t)) < ulong_mod); [|lia].
  apply (NoDup_below _ _ _ eq_refl); [by vm_compute|done..].
Qed.

(** ** [height] and [exists] on a represented tree *)

Lemma height_refines t : ∀ fuel m c,
  (depth t < fuel)%nat → tree_at m c t → height_spec t < ulong_mod →
  height fuel m c = Some (height_spec t).
Proof.
  induction t as [|a k v hk l IHl r IHr];
    intros fuel m c Hfuel (p & Hc & Hrep) Hb;
    (destruct fuel as [|f]; [simpl in Hfuel; lia|]); simpl in *.
  - subst p. by rewrite Hc.
  - destruct Hrep as (-> & Hpay & (pl & Hl & Hrl) & (pr & Hr & Hrr)).
    rewrite Hc. simpl.
    pose proof (height_spec_depth l). pose proof (height_spec_depth r).
    rewrite (IHl f m (Left a)); [|lia|by exists pl|lia]. simpl.
    rewrite (IHr f m (Right a)); [|lia|by exists pr|lia]. simpl.
    f_equal. rewrite Z.mod_small.
    + destruct (height_spec l <? height_spec r) eqn:Hlt;
        [apply Z.ltb_lt in Hlt|apply Z.ltb_ge in Hlt]; lia.
    + destruct (height_spec l <? height_spec r); lia.
Qed.

Lemma exists_total t : ∀ fuel m p k,
  (depth t < fuel)%nat → repr m p t → is_Some (exists_ fuel m p k).
Proof.
  induction t as [|a key v hk l IHl r IHr]; intros fuel m p k Hfuel Hrep;
    (destruct fuel as [|f]; [simpl in Hfuel; lia|]); simpl in *.
  - subst p. eauto.
  - destruct Hrep as (-> & Hpay & (pl & Hl & Hrl) & (pr & Hr & Hrr)).
    destruct (pay_Some _ _ _ _ _ Hpay) as (n & Hn & Hkey & _).
    rewrite Hn. simpl. rewrite Hkey.
    unfold read in Hl, Hr. rewrite Hn in Hl, Hr. simpl in Hl, Hr.
    injection Hl as ->. injection Hr as ->.
    destruct (k =? key); [eauto|].
    destruct (k <? key); [apply IHl|apply IHr]; (lia || done).
Qed.

(** ** [split] does not look at priorities *)

Lemma read_reprio g m x : read (reprio g m) x = read m x.
Proof.
  destruct x as [v|a|a]; unfold read; simpl; [done|..];
    rewrite lookup_fmap; by destruct (nodes m !! a).
Qed.

Lemma write_reprio g m x p : write (reprio g m) x p = reprio g <$> write m x p.
Proof.
  destruct x as [v|a|a]; unfold write; simpl.
  - by destruct (vars m !! v).
  - rewrite lookup_fmap. destruct (nodes m !! a) as [n|]; simpl; [|done].
    unfold reprio. simpl. by rewrite fmap_insert.
  - rewrite lookup_fmap. destruct (nodes m !! a) as [n|]; simpl; [|done].
    unfold reprio. simpl. by rewrite fmap_insert.
Qed.

Lemma split_reprio g fuel : ∀ m c k l r,
  split fuel (reprio g m) c k l r = reprio g <$> split fuel m c k l r.
Proof.
  induction fuel as [|f IH]; intros m c k l r; [done|]. simpl.
  rewrite read_reprio. destruct (read m c) as [[a|]|]; simpl; [| |done].
  - rewrite lookup_fmap. destruct (nodes m !! a) as [n|]; simpl; [|done].
    destruct (k <? tree_key n).
    + rewrite IH. destruct (split f m (Left a) k l (Left a)) as [m1|]; simpl; [|done].
      rewrite read_reprio. destruct (read m1 c); simpl; [|done].
      apply write_reprio.
    + rewrite IH. destruct (split f m (Right a) k (Right a) r) as [m1|]; simpl; [|done].
      rewrite read_reprio. destruct (read m1 c); simpl; [|done].
      apply write_reprio.
  - rewrite write_reprio. destruct (write m r None) as [m1|]; simpl; [|done].
    rewrite read_reprio. destruct (read m1 r); simpl; [|done].
    apply write_reprio.
Qed.

(** ** The driver loop *)

Lemma repr_allocated m t : ∀ p b,
  repr m p t → b ∈ addrs t → is_Some (nodes m !! b).
Proof.
  induction t as [|a k v hk l IHl r IHr]; intros p b; simpl.
  - by intros _ ?%elem_of_nil.
  - intros (-> & Hpay & (pl & Hl & Hrl) & (pr & Hr & Hrr)).
    rewrite elem_of_cons, elem_of_app. intros [->|[?|?]]; [|eauto..].
    destruct (pay_Some _ _ _ _ _ Hpay) as (n & -> & _). eauto.
Qed.

Lemma new_Node_spec m k v rnd m1 a :
  new_Node m k v rnd = (m1, a) →
  nodes m !! a = None ∧
  (∀ y, y ≠ Left a → y ≠ Right a → read m1 y = read m y) ∧
  (∀ b, b ≠ a → pay m1 b = pay m b) ∧
  repr m1 (Some a) (T a k v rnd E E).
Proof.
  unfold new_Node. intros [= <- <-].
  set (a := fresh (dom (nodes m))).
  assert (nodes m !! a = None) as Ha.
  { apply not_elem_of_dom, is_fresh. }
  split; [done|]. split; [|split].
  - intros [x|b|b] HL HR; unfold read; simpl; [done|..];
      rewrite lookup_insert_ne; congruence.
  - intros b Hb. unfold pay. simpl. by rewrite lookup_insert_ne.
  - simpl. unfold pay, read. simpl. rewrite lookup_insert_eq. simpl. eauto 10.
Qed.

Lemma main_loop_cons fuel m x k v rnd rest :
  main_loop fuel m x ((k, v, rnd) :: rest) =
  insert fuel (new_Node m k v rnd).1 x (new_Node m k v rnd).2 ≫=
    λ m2, main_loop fuel m2 x rest.
Proof. reflexivity. Qed.

Lemma main_loop_inv input : ∀ fuel m x t seen,
  tree_at m (Var x) t → NoDup (addrs t) → bst t → heap_ord t →
  (∀ key, key ∈ keys t → key ∈ seen) →
  NoDup (seen ++ input_keys input) →
  (length (keys t) + length input + 1 < fuel)%nat →
  ∃ m' t', main_loop fuel m (Var x) input = Some m' ∧
    tree_at m' (Var x) t' ∧ bst t' ∧ heap_ord t'.
Proof.
  induction input as [|[[k v] rnd] rest IH];
    intros fuel m x t seen Ht Hnd Hbst Hheap Hseen Hkeys Hfuel.
  { exists m, t. simpl. eauto. }
  rewrite main_loop_cons.
  destruct (new_Node m k v rnd) as [m1 a] eqn:Hnew. simpl.
  apply new_Node_spec in Hnew as (Ha & Hrd & Hpay & Hrep).
  destruct Ht as (p & Hp & Hrt).
  assert (a ∉ addrs t) as Hat.
  { intros Hin. destruct (repr_allocated _ _ _ _ Hrt Hin) as [? Hsome].
    congruence. }
  destruct (insert_refines t fuel m1 (Var x) a k v rnd)
    as (m2 & Hi & Ht2 & _); [| |done| |done|done|done|done|].
  - pose proof (depth_le_addrs t). rewrite length_keys_addrs in Hfuel.
    simpl in Hfuel. lia.
  - exists p. split; [by rewrite Hrd|].
    eapply (repr_ext_on m); [| |done].
    + intros b Hb. apply Hpay. by intros ->.
    + intros y (b & Hb & [->| ->])%elem_of_cells; apply Hrd; congruence.
  - rewrite elem_of_cells. by intros (? & _ & [?|?]).
  - rewrite Hi. simpl.
    simpl in Hkeys. apply NoDup_app in Hkeys as (Hs & Hsk & Hk).
    apply NoDup_cons in Hk as [Hk Hrest].
    assert (k ∉ keys t) as Hkt.
    { intros Hin. apply (Hsk k); [auto|]. by left. }
    apply (IH fuel m2 x (insert_tree t a k v rnd) (seen ++ [k])).
    + done.
    + eapply NoDup_submseteq_inv; [apply addrs_insert_tree|].
      by apply NoDup_cons.
    + by apply bst_insert_tree.
    + by apply heap_ord_insert_tree.
    + intros key Hin.
      pose proof (keys_insert_tree t a k v rnd) as Hsub.
      apply (elem_of_submseteq _ _ _ Hin) in Hsub as [->|?]%elem_of_cons;
        set_solver.
    + rewrite <- app_assoc. simpl. apply NoDup_app. split; [done|].
      split; [|by apply NoDup_cons]. done.
    + pose proof (submseteq_length _ _ (keys_insert_tree t a k v rnd)) as Hl.
      simpl in Hl, Hfuel. lia.
Qed.

(** ** Root-to-leaf paths, totality of [height], triples *)

Lemma longest_app ps qs :
  longest (ps ++ qs) = Nat.max (longest ps) (longest qs).
Proof. induction ps as [|p ps IH]; simpl; [done|]. rewrite IH. lia. Qed.

Lemma longest_cons a ps :
  ps ≠ [] → longest (cons a <$> ps) = S (longest ps).
Proof.
  induction ps as [|p ps IH]; [done|]. intros _.
  destruct (decide (ps = [])) as [->|Hne]; [simpl; lia|].
  specialize (IH Hne).
  change (longest (cons a <$> p :: ps))
    with (Nat.max (length (a :: p)) (longest (cons a <$> ps))).
  rewrite IH. simpl. lia.
Qed.

Lemma paths_nil t : paths t = [] → t = E.
Proof.
  induction t as [|a k v hk l IHl r IHr]; [done|]. intros Hnil. exfalso.
  destruct (decide (l = E ∧ r = E)) as [[-> ->]|Hne]; [done|].
  assert (paths (T a k v hk l r) = cons a <$> (paths l ++ paths r)) as Heq.
  { destruct l, r; try done; tauto. }
  rewrite Heq in Hnil. apply fmap_nil_inv, app_nil in Hnil as [Hl Hr].
  apply Hne. auto.
Qed.

Lemma longest_paths t : longest (paths t) = depth t.
Proof.
  induction t as [|a k v hk l IHl r IHr]; [done|].
  destruct (decide (l = E ∧ r = E)) as [[-> ->]|Hne]; [done|].
  assert (paths (T a k v hk l r) = cons a <$> (paths l ++ paths r)) as ->.
  { destruct l, r; try done; tauto. }
  rewrite longest_cons, longest_app, IHl, IHr; [done|].
  intros [Hl Hr]%app_nil. apply Hne. auto using paths_nil.
Qed.

Lemma height_total t : ∀ fuel m c,
  (depth t < fuel)%nat → tree_at m c t → is_Some (height fuel m c).
Proof.
  induction t as [|a k v hk l IHl r IHr];
    intros fuel m c Hfuel (p & Hc & Hrep);
    (destruct fuel as [|f]; [simpl in Hfuel; lia|]); simpl in *.
  - subst p. rewrite Hc. simpl. eauto.
  - destruct Hrep as (-> & Hpay & (pl & Hl & Hrl) & (pr & Hr & Hrr)).
    rewrite Hc. simpl.
    destruct (IHl f m (Left a)) as [hl ->]; [lia|by exists pl|].
    destruct (IHr f m (Right a)) as [hr ->]; [lia|by exists pr|].
    simpl. eauto.
Qed.

Lemma repr_triples m t : ∀ p b x,
  repr m p t → (b, x) ∈ triples t → pay m b = Some x.
Proof.
  induction t as [|a k v hk l IHl r IHr]; intros p b x; simpl.
  - by intros _ ?%elem_of_nil.
  - intros (-> & Hpay & (pl & Hl & Hrl) & (pr & Hr & Hrr)).
    rewrite elem_of_cons, elem_of_app. intros [[= -> ->]|[?|?]]; eauto.
Qed.

(** * Claims *)

(** C1 (as amended).  An outermost call of [split] on a search tree
    [t] returns two trees [L] and [R] such that every key of [L] is at
    most the pivot and every key of [R] is greater than the pivot; the
    split of the empty tree is (empty, empty). *)
Theorem split_partition fuel m c k l r t :
  owns m c t → out_params m c l r t → bst t → (depth t < fuel)%nat →
  ∃ m' L R, split fuel m c k l r = Some m' ∧
    tree_at m' l L ∧ tree_at m' r R ∧
    Forall (λ x, x ≤ k) (keys L) ∧ Forall (λ x, k < x) (keys R) ∧
    (t = E → L = E ∧ R = E).
Proof.
  intros (Ht & Hnd & Hc) (Hl & Hr & Hlr & Hcl & Hcr & Hvl & Hvr) Hbst Hfuel.
  destruct (split_refines k t fuel m c l r) as (m' & Hs & HL & HR & _);
    try done.
  exists m', (split_tree t k).1, (split_tree t k).2.
  destruct (bounds_split_tree t k Hbst) as [Hle Hgt].
  do 5 (split; [done|]). by intros ->.
Qed.

Lemma split_partition_witness :
  ∃ m' L R, split 3 mem_a (Var 0) 12 (Var 1) (Var 2) = Some m' ∧
    tree_at m' (Var 1) L ∧ tree_at m' (Var 2) R ∧
    Forall (λ x, x ≤ 12) (keys L) ∧ Forall (λ x, 12 < x) (keys R) ∧
    (tree_a = E → L = E ∧ R = E).
Proof.
  apply (split_partition 3 mem_a (Var 0) 12 (Var 1) (Var 2) tree_a).
  - solve_owns.
  - solve_out_params.
  - simpl. compute_done.
  - simpl. lia.
Defined.

(** C1 as stated fails: splitting the one-node tree 5 at pivot 5
    stores the node in [l], although its key is not below the pivot,
    and NULL in [r]; every key is kept. *)
Lemma split_partition_counterexample :
  owns mem_c (Var 0) tree_c ∧ out_params mem_c (Var 0) (Var 1) (Var 2) tree_c ∧
  bst tree_c ∧ NoDup (keys tree_c) ∧
  ∃ m', split 2 mem_c (Var 0) 5 (Var 1) (Var 2) = Some m' ∧
    tree_at m' (Var 1) tree_c ∧ tree_at m' (Var 2) E ∧
    keys tree_c ++ keys E ≡ₚ keys tree_c ∧
    ¬ (Forall (λ x, x < 5) (keys tree_c) ∧ Forall (λ x, 5 ≤ x) (keys E)).
Proof.
  split; [solve_owns|]. split; [solve_out_params|].
  split; [simpl; compute_done|]. split; [compute_done|].
  eexists. split; [vm_compute; reflexivity|].
  split; [solve_tree_at|]. split; [solve_tree_at|]. split; [done|].
  simpl. intros [H _]. apply Forall_cons in H as [? _]. lia.
Qed.

(** C3.  On a tree that satisfies the BST and the heap invariant, both
    trees returned by [split] satisfy both invariants; and [split]
    never looks at a priority: relabelling all priorities of the store
    by any function commutes with the whole computation. *)
Theorem split_preserves_invariants fuel m c k l r t :
  owns m c t → out_params m c l r t → bst t → heap_ord t →
  (depth t < fuel)%nat →
  (∃ m' L R, split fuel m c k l r = Some m' ∧
     tree_at m' l L ∧ tree_at m' r R ∧
     bst L ∧ bst R ∧ heap_ord L ∧ heap_ord R) ∧
  (∀ g, split fuel (reprio g m) c k l r = reprio g <$> split fuel m c k l r).
Proof.
  intros (Ht & Hnd & Hc) (Hl & Hr & Hlr & Hcl & Hcr & Hvl & Hvr) Hbst Hheap Hfuel.
  split; [|intros g; apply split_reprio].
  destruct (split_refines k t fuel m c l r) as (m' & Hs & HL & HR & _);
    try done.
  exists m', (split_tree t k).1, (split_tree t k).2.
  destruct (bst_split_tree t k Hbst). destruct (heap_ord_split_tree t k Hheap).
  done.
Qed.

Lemma split_preserves_invariants_witness :
  (∃ m' L R, split 3 mem_a (Var 0) 7 (Var 1) (Var 2) = Some m' ∧
     tree_at m' (Var 1) L ∧ tree_at m' (Var 2) R ∧
     bst L ∧ bst R ∧ heap_ord L ∧ heap_ord R) ∧
  (∀ g, split 3 (reprio g mem_a) (Var 0) 7 (Var 1) (Var 2) =
        reprio g <$> split 3 mem_a (Var 0) 7 (Var 1) (Var 2)).
Proof.
  apply (split_preserves_invariants 3 mem_a (Var 0) 7 (Var 1) (Var 2) tree_a).
  - solve_owns.
  - solve_out_params.
  - simpl. compute_done.
  - simpl. compute_done.
  - simpl. lia.
Defined.

(** C4 (the code departs from it).  The tree 10 (priority 5) with left
    child 5 (priority 3) receives the node 7 with priority 9.  As
    specified the tree is split at 7, the part with the key 5 becomes
    the left child of the new root and the part with the key 10 its
    right child; [insert] leaves the new root with the right child 10
    and no left child. *)
Theorem insert_attaches_empty_part :
  owns mem_a (Var 0) tree_a ∧
  fresh_node mem_a (Var 0) 3%positive 7 0 9 tree_a ∧
  split_by_spec tree_a 7 = (T 2 5 0 3 E E, T 1 10 0 5 E E) ∧
  insert_by_spec tree_a 3%positive 7 0 9 =
    T 3 7 0 9 (T 2 5 0 3 E E) (T 1 10 0 5 E E) ∧
  ∃ m', insert 4 mem_a (Var 0) 3%positive = Some m' ∧
    tree_at m' (Var 0) (T 3 7 0 9 E (T 1 10 0 5 E E)).
Proof.
  split; [solve_owns|]. split; [solve_fresh_node|].
  split; [reflexivity|]. split; [reflexivity|].
  eexists. split; [vm_compute; reflexivity|]. solve_tree_at.
Qed.

(** C2.  Whatever pairs with pairwise distinct keys the driver reads
    and whatever priorities are drawn for them, the tree built from the
    empty tree by the successive calls of [insert] satisfies the BST
    invariant and the heap invariant. *)
Theorem insert_preserves_invariants input :
  NoDup (input_keys input) →
  ∃ m t, run input = Some m ∧ tree_at m (Var 0) t ∧ bst t ∧ heap_ord t.
Proof.
  intros Hnd. unfold run.
  apply (main_loop_inv input _ main_mem 0%nat E []); simpl; try done.
  - by exists None.
  - constructor.
  - lia.
Qed.

Lemma insert_preserves_invariants_witness :
  ∃ m t, run [(10, 0, 5); (5, 0, 3); (7, 0, 9)] = Some m ∧
    tree_at m (Var 0) t ∧ bst t ∧ heap_ord t.
Proof.
  apply (insert_preserves_invariants [(10, 0, 5); (5, 0, 3); (7, 0, 9)]).
  compute_done.
Defined.

(** C5 (the code departs from it).  The driver inserts the keys 10, 5
    and 7, drawing the priorities 5, 3 and 9; afterwards [exists]
    answers false for the inserted key 5. *)
Theorem exists_misses_inserted_key :
  5 ∈ input_keys [(10, 0, 5); (5, 0, 3); (7, 0, 9)] ∧
  ∃ m p, run [(10, 0, 5); (5, 0, 3); (7, 0, 9)] = Some m ∧
    read m (Var 0) = Some p ∧
    tree_at m (Var 0) (T 3 7 0 9 E (T 1 10 0 5 E E)) ∧
    exists_ 5 m p 5 = Some false.
Proof.
  split; [compute_done|].
  eexists. eexists. split; [vm_compute; reflexivity|].
  split; [vm_compute; reflexivity|]. split; [solve_tree_at|].
  vm_compute. reflexivity.
Qed.

(** C6 (the code departs from it).  The tree built from the keys 10 and
    5 has two keys; inserting a new node with the key 7, which does not
    occur in it, and priority 9 leaves a tree with two keys again. *)
Theorem insert_loses_node :
  ∃ m2 m3 n m4 t2 t4,
    run [(10, 0, 5); (5, 0, 3)] = Some m2 ∧ tree_at m2 (Var 0) t2 ∧
    new_Node m2 7 0 9 = (m3, n) ∧
    insert 4 m3 (Var 0) n = Some m4 ∧ tree_at m4 (Var 0) t4 ∧
    (7 ∉ keys t2) ∧ length (keys t2) = 2%nat ∧ length (keys t4) = 2%nat.
Proof.
  eexists. eexists. eexists. eexists.
  exists (T 1 10 0 5 (T 2 5 0 3 E E) E), (T 3 7 0 9 E (T 1 10 0 5 E E)).
  split; [vm_compute; reflexivity|]. split; [solve_tree_at|].
  split; [vm_compute; reflexivity|].
  split; [vm_compute; reflexivity|]. split; [solve_tree_at|].
  split; [compute_done|]. done.
Qed.

(** C7.  [height] returns 0 on the empty tree and one more than the
    larger of the heights of the two children on a node; the result is
    the number of nodes on the longest path from the root to a leaf. *)
Theorem height_definition fuel m c t :
  owns m c t → ptr64 t → (depth t < fuel)%nat →
  (t = E → height fuel m c = Some 0) ∧
  (∀ a k v hk l r, t = T a k v hk l r →
     ∃ hl hr, height fuel m (Left a) = Some hl ∧
       height fuel m (Right a) = Some hr ∧
       height fuel m c = Some (1 + Z.max hl hr)) ∧
  height fuel m c = Some (Z.of_nat (longest (paths t))).
Proof.
  intros (Ht & Hnd & Hc) H64 Hfuel.
  pose proof (height_spec_bound t Hnd H64) as Hb.
  pose proof (height_refines t fuel m c Hfuel Ht Hb) as Hh.
  split; [by intros ->|]. split.
  - intros a k v hk l r ->.
    destruct Ht as (p & Hp & -> & Hpay & (pl & Hl & Hrl) & (pr & Hr & Hrr)).
    simpl in Hb, Hfuel.
    exists (height_spec l), (height_spec r).
    split; [apply height_refines; [lia|by exists pl|lia]|].
    split; [apply height_refines; [lia|by exists pr|lia]|]. done.
  - by rewrite longest_paths, <- height_spec_depth.
Qed.

Lemma height_definition_witness :
  (tree_a = E → height 3 mem_a (Var 0) = Some 0) ∧
  (∀ a k v hk l r, tree_a = T a k v hk l r →
     ∃ hl hr, height 3 mem_a (Left a) = Some hl ∧
       height 3 mem_a (Right a) = Some hr ∧
       height 3 mem_a (Var 0) = Some (1 + Z.max hl hr)) ∧
  height 3 mem_a (Var 0) = Some (Z.of_nat (longest (paths tree_a))).
Proof.
  apply (height_definition 3 mem_a (Var 0) tree_a).
  - solve_owns.
  - compute_done.
  - simpl. lia.
Defined.

(** C8.  On a tree of depth [d], every one of the four operations
    returns as soon as it is allowed [d + 2] nested calls. *)
Theorem operations_terminate fuel m c k l r n kn v hk t :
  owns m c t → out_params m c l r t → fresh_node m c n kn v hk t →
  (S (depth t) < fuel)%nat →
  is_Some (split fuel m c k l r) ∧
  is_Some (insert fuel m c n) ∧
  (∃ p, read m c = Some p ∧ is_Some (exists_ fuel m p k)) ∧
  is_Some (height fuel m c).
Proof.
  intros (Ht & Hnd & Hc) (Hl & Hr & Hlr & Hcl & Hcr & Hvl & Hvr)
    (Hn & HcL & HcR & Hnew) Hfuel.
  split; [|split; [|split]].
  - destruct (split_refines k t fuel m c l r) as (m' & -> & _);
      [lia|done..|]. eauto.
  - destruct (insert_refines t fuel m c n kn v hk) as (m' & -> & _);
      [done..|]. eauto.
  - destruct Ht as (p & Hp & Hrep). exists p. split; [done|].
    apply (exists_total t); [lia|done].
  - apply (height_total t); [lia|done].
Qed.

Lemma operations_terminate_witness :
  is_Some (split 4 mem_a (Var 0) 7 (Var 1) (Var 2)) ∧
  is_Some (insert 4 mem_a (Var 0) 3%positive) ∧
  (∃ p, read mem_a (Var 0) = Some p ∧ is_Some (exists_ 4 mem_a p 7)) ∧
  is_Some (height 4 mem_a (Var 0)).
Proof.
  apply (operations_terminate 4 mem_a (Var 0) 7 (Var 1) (Var 2)
           3%positive 7 0 9 tree_a).
  - solve_owns.
  - solve_out_params.
  - solve_fresh_node.
  - simpl. lia.
Defined.

(** C9.  [split] and [insert] leave the key, the value and the
    priority of every node of the store as they were, so every node of
    a tree found in the resulting store carries the triple it had
    before the call.  ([exists] and [height] only read the store.) *)
Theorem payload_immutable fuel m c k l r n ms mi :
  split fuel m c k l r = Some ms → insert fuel m c n = Some mi →
  (∀ a, pay ms a = pay m a) ∧ (∀ a, pay mi a = pay m a) ∧
  (∀ x t a tr, tree_at ms x t → (a, tr) ∈ triples t → pay m a = Some tr) ∧
  (∀ x t a tr, tree_at mi x t → (a, tr) ∈ triples t → pay m a = Some tr).
Proof.
  intros Hs Hi.
  assert (∀ a, pay ms a = pay m a) as Hps by (intros a; eapply pay_split, Hs).
  assert (∀ a, pay mi a = pay m a) as Hpi by (intros a; eapply pay_insert, Hi).
  split; [done|]. split; [done|]. split.
  - intros x t a tr (p & _ & Hrep) Hin. rewrite <- Hps.
    eapply repr_triples; eauto.
  - intros x t a tr (p & _ & Hrep) Hin. rewrite <- Hpi.
    eapply repr_triples; eauto.
Qed.

Lemma payload_immutable_witness :
  ∃ ms mi,
    split 4 mem_a (Var 0) 7 (Var 1) (Var 2) = Some ms ∧
    insert 4 mem_a (Var 0) 3%positive = Some mi ∧
    (∀ a, pay ms a = pay mem_a a) ∧ (∀ a, pay mi a = pay mem_a a) ∧
    (∀ x t a tr, tree_at ms x t → (a, tr) ∈ triples t →
       pay mem_a a = Some tr) ∧
    (∀ x t a tr, tree_at mi x t → (a, tr) ∈ triples t →
       pay mem_a a = Some tr).
Proof.
  eexists. eexists.
  split; [vm_compute; reflexivity|]. split; [vm_compute; reflexivity|].
  apply (payload_immutable 4 mem_a (Var 0) 7 (Var 1) (Var 2) 3%positive);
    vm_compute; reflexivity.
Defined.

(** C10.  Either tree returned by [split] is at most as high as the
    tree that was split, and the tree left by [insert] is at least 1
    and at most one more than the tree it was called on, all heights
    being those computed by [height]. *)
Theorem height_bounds fuel m c k l r n kn v hk t :
  owns m c t → out_params m c l r t → fresh_node m c n kn v hk t →
  ptr64 t → Z.pos n < ulong_mod → (S (depth t) < fuel)%nat →
  ∃ hT, height fuel m c = Some hT ∧
    (∃ ms hL hR, split fuel m c k l r = Some ms ∧
       height fuel ms l = Some hL ∧ height fuel ms r = Some hR ∧
       hL ≤ hT ∧ hR ≤ hT) ∧
    (∃ mi hI, insert fuel m c n = Some mi ∧
       height fuel mi c = Some hI ∧ 1 ≤ hI ≤ hT + 1).
Proof.
  intros (Ht & Hnd & Hc) (Hl & Hr & Hlr & Hcl & Hcr & Hvl & Hvr)
    (Hn & HcL & HcR & Hnew) H64 Hn64 Hfuel.
  pose proof (height_spec_bound t Hnd H64) as Hb.
  exists (height_spec t).
  split; [apply height_refines; [lia|done..]|]. split.
  - destruct (split_refines k t fuel m c l r) as (ms & Hs & HL & HR & _);
      [lia|done..|].
    destruct (depth_split_tree t k) as [HdL HdR].
    exists ms, (height_spec (split_tree t k).1), (height_spec (split_tree t k).2).
    rewrite !height_spec_depth in *.
    split; [done|].
    split; [rewrite <- height_spec_depth; apply height_refines;
            [lia|done|rewrite height_spec_depth; lia]|].
    split; [rewrite <- height_spec_depth; apply height_refines;
            [lia|done|rewrite height_spec_depth; lia]|].
    lia.
  - destruct (insert_refines t fuel m c n kn v hk) as (mi & Hi & Ht' & _);
      [done..|].
    pose proof (depth_insert_tree t n kn v hk) as Hd.
    exists mi, (height_spec (insert_tree t n kn v hk)).
    split; [done|]. split.
    + apply height_refines; [lia|done|].
      apply height_spec_bound.
      * eapply NoDup_submseteq_inv; [apply addrs_insert_tree|].
        by apply NoDup_cons.
      * unfold ptr64. eapply Forall_submseteq; [apply addrs_insert_tree|].
        by apply Forall_cons.
    + rewrite !height_spec_depth. lia.
Qed.

Lemma height_bounds_witness :
  ∃ hT, height 4 mem_a (Var 0) = Some hT ∧
    (∃ ms hL hR, split 4 mem_a (Var 0) 7 (Var 1) (Var 2) = Some ms ∧
       height 4 ms (Var 1) = Some hL ∧ height 4 ms (Var 2) = Some hR ∧
       hL ≤ hT ∧ hR ≤ hT) ∧
    (∃ mi hI, insert 4 mem_a (Var 0) 3%positive = Some mi ∧
       height 4 mi (Var 0) = Some hI ∧ 1 ≤ hI ≤ hT + 1).
Proof.
  apply (height_bounds 4 mem_a (Var 0) 7 (Var 1) (Var 2)
           3%positive 7 0 9 tree_a).
  - solve_owns.
  - solve_out_params.
  - solve_fresh_node.
  - compute_done.
  - reflexivity.
  - simpl. lia.
Defined.


(** * Further properties of the operations *)

(** ** Searching *)

Lemma exists_sound t : ∀ fuel m p k,
  repr m p t → exists_ fuel m p k = Some true → k ∈ keys t.
Proof.
  induction t as [|a key v hk l IHl r IHr]; intros fuel m p k Hrep;
    (destruct fuel as [|f]; [done|]); simpl in *.
  - by subst p.
  - destruct Hrep as (-> & Hpay & (pl & Hl & Hrl) & (pr & Hr & Hrr)).
    destruct (pay_Some _ _ _ _ _ Hpay) as (n & Hn & Hkey & _).
    rewrite Hn. simpl. rewrite Hkey.
    unfold read in Hl, Hr. rewrite Hn in Hl, Hr. simpl in Hl, Hr.
    injection Hl as ->. injection Hr as ->.
    destruct (k =? key) eqn:Heq.
    + apply Z.eqb_eq in Heq as ->. set_solver.
    + destruct (k <? key); intros Hex.
      * apply IHl in Hex; [set_solver|done].
      * apply IHr in Hex; [set_solver|done].
Qed.

Lemma exists_search t : ∀ fuel m p k,
  repr m p t → bst t → (depth t < fuel)%nat →
  exists_ fuel m p k = Some (bool_decide (k ∈ keys t)).
Proof.
  induction t as [|a key v hk l IHl r IHr]; intros fuel m p k Hrep Hbst Hfuel;
    (destruct fuel as [|f]; [simpl in Hfuel; lia|]); simpl in *.
  - subst p. f_equal; symmetry; apply bool_decide_eq_false; set_solver.
  - destruct Hrep as (-> & Hpay & (pl & Hl & Hrl) & (pr & Hr & Hrr)).
    destruct Hbst as (Hlt & Hgt & Hbl & Hbr).
    destruct (pay_Some _ _ _ _ _ Hpay) as (n & Hn & Hkey & _).
    rewrite Hn. simpl. rewrite Hkey.
    unfold read in Hl, Hr. rewrite Hn in Hl, Hr. simpl in Hl, Hr.
    injection Hl as ->. injection Hr as ->.
    rewrite Forall_forall in Hlt, Hgt.
    destruct (k =? key) eqn:Heq.
    + apply Z.eqb_eq in Heq as ->. f_equal. symmetry.
      apply bool_decide_eq_true. set_solver.
    + apply Z.eqb_neq in Heq. destruct (k <? key) eqn:Hk.
      * apply Z.ltb_lt in Hk. rewrite (IHl f m pl k); [|done|done|lia].
        f_equal. apply bool_decide_ext.
        rewrite elem_of_app, elem_of_cons. split; [tauto|].
        intros [?|[?|Hin]]; [done|done|]. apply Hgt in Hin. lia.
      * apply Z.ltb_ge in Hk. rewrite (IHr f m pr k); [|done|done|lia].
        f_equal. apply bool_decide_ext.
        rewrite elem_of_app, elem_of_cons. split; [tauto|].
        intros [Hin|[?|?]]; [|done|done]. apply Hlt in Hin. lia.
Qed.

(** ** Splits that lose nothing *)

Lemma cut_left_id k t : Forall (λ x, k < x) (keys t) → cut_left k t = t.
Proof.
  induction t as [|a key v hk l IHl r IHr]; simpl; [done|].
  rewrite Forall_app, Forall_cons. intros (Hl & Hkey & Hr).
  apply Z.ltb_lt in Hkey. rewrite Hkey. by rewrite IHl.
Qed.

Lemma cut_right_id k t : Forall (λ x, x ≤ k) (keys t) → cut_right k t = t.
Proof.
  induction t as [|a key v hk l IHl r IHr]; simpl; [done|].
  rewrite Forall_app, Forall_cons. intros (Hl & Hkey & Hr).
  apply Z.ltb_ge in Hkey. rewrite Hkey. by rewrite IHr.
Qed.

Lemma split_tree_above t k :
  Forall (λ x, k < x) (keys t) → split_tree t k = (E, t).
Proof.
  destruct t as [|a key v hk l r]; simpl; [done|].
  rewrite Forall_app, Forall_cons. intros (Hl & Hkey & Hr).
  apply Z.ltb_lt in Hkey. rewrite Hkey. by rewrite cut_left_id.
Qed.

Lemma split_tree_below t k :
  Forall (λ x, x ≤ k) (keys t) → split_tree t k = (t, E).
Proof.
  destruct t as [|a key v hk l r]; simpl; [done|].
  rewrite Forall_app, Forall_cons. intros (Hl & Hkey & Hr).
  apply Z.ltb_ge in Hkey. rewrite Hkey. by rewrite cut_right_id.
Qed.

Lemma split_tree_one_side t k :
  (split_tree t k).1 = E ∨ (split_tree t k).2 = E.
Proof.
  destruct t as [|a key v hk l r]; simpl; [by left|].
  destruct (k <? key); simpl; auto.
Qed.

(** ** Insertions that lose nothing *)

Lemma keys_insert_tree_new t n k v hk : k ∈ keys (insert_tree t n k v hk).
Proof.
  induction t as [|a key val prio l IHl r IHr]; simpl; [set_solver|].
  destruct (hk <? prio); [destruct (k <? key)|]; simpl; set_solver.
Qed.

Lemma prios_cut_left k t : prios (cut_left k t) ⊆+ prios t.
Proof.
  induction t as [|a key v hk l IHl r IHr]; simpl; [done|].
  destruct (k <? key); simpl; [|apply submseteq_nil_l].
  apply submseteq_skip. by apply submseteq_app.
Qed.

Lemma prios_cut_right k t : prios (cut_right k t) ⊆+ prios t.
Proof.
  induction t as [|a key v hk l IHl r IHr]; simpl; [done|].
  destruct (k <? key); simpl; [apply submseteq_nil_l|].
  apply submseteq_skip. by apply submseteq_app.
Qed.

Lemma prios_split_tree t k :
  prios (split_tree t k).1 ++ prios (split_tree t k).2 ⊆+ prios t.
Proof.
  destruct t as [|a key v hk l r]; simpl; [done|].
  destruct (k <? key); simpl.
  - apply submseteq_skip, submseteq_app; [apply prios_cut_left|done].
  - rewrite app_nil_r.
    apply submseteq_skip, submseteq_app; [done|apply prios_cut_right].
Qed.

Lemma prios_insert_tree t n k v hk :
  prios (insert_tree t n k v hk) ⊆+ hk :: prios t.
Proof.
  induction t as [|a key val prio l IHl r IHr]; simpl; [done|].
  destruct (hk <? prio); [destruct (k <? key)|]; simpl.
  - trans (prio :: (hk :: prios l) ++ prios r).
    + apply submseteq_skip. by apply submseteq_app.
    + apply Permutation_submseteq, perm_swap.
  - trans (prio :: prios l ++ hk :: prios r).
    + apply submseteq_skip. by apply submseteq_app.
    + apply Permutation_submseteq.
      rewrite <- (Permutation_middle (prios l) (prios r) hk). apply perm_swap.
  - pose proof (prios_split_tree (T a key val prio l r) k) as Hsub.
    simpl in Hsub. revert Hsub.
    generalize ((if k <? key
       then (E, T a key val prio (cut_left k l) r)
       else (T a key val prio l (cut_right k r), E))). intros [L R]. simpl.
    intros Hsub. by apply submseteq_skip.
Qed.

(** Below priorities that are all greater, the new node ends up in an
    empty place and no [split] of a non-empty tree takes place. *)
Lemma insert_tree_low_priority t n k v hk :
  Forall (λ p, hk < p) (prios t) →
  keys (insert_tree t n k v hk) ≡ₚ k :: keys t ∧
  prios (insert_tree t n k v hk) ≡ₚ hk :: prios t.
Proof.
  induction t as [|a key val prio l IHl r IHr]; simpl; [done|].
  rewrite Forall_cons, Forall_app. intros (Hp & Hl & Hr).
  apply Z.ltb_lt in Hp. rewrite Hp.
  destruct (k <? key); simpl.
  - destruct (IHl Hl) as [-> ->]. split; [done|]. simpl. apply perm_swap.
  - destruct (IHr Hr) as [-> ->]. split.
    + rewrite (perm_swap k key (keys r)).
      by rewrite <- (Permutation_middle (keys l) (key :: keys r) k).
    + rewrite <- (Permutation_middle (prios l) (prios r) hk). apply perm_swap.
Qed.

Lemma insert_tree_key_above t n k v hk :
  Forall (λ x, x ≤ k) (keys t) → keys (insert_tree t n k v hk) = keys t ++ [k].
Proof.
  induction t as [|a key val prio l IHl r IHr]; simpl; [done|].
  rewrite Forall_app, Forall_cons. intros (Hl & Hkey & Hr).
  pose proof Hkey as Hkb. apply Z.ltb_ge in Hkb. rewrite Hkb.
  destruct (hk <? prio); simpl.
  - rewrite IHr by done. by rewrite <- app_assoc.
  - by rewrite cut_right_id.
Qed.

Lemma insert_tree_key_below t n k v hk :
  Forall (λ x, k < x) (keys t) → keys (insert_tree t n k v hk) = k :: keys t.
Proof.
  induction t as [|a key val prio l IHl r IHr]; simpl; [done|].
  rewrite Forall_app, Forall_cons. intros (Hl & Hkey & Hr).
  pose proof Hkey as Hkb. apply Z.ltb_lt in Hkb. rewrite Hkb.
  destruct (hk <? prio); simpl.
  - by rewrite IHl.
  - by rewrite cut_left_id.
Qed.

Lemma root_item_insert_tree t n k v hk :
  root_item (insert_tree t n k v hk) =
  match root_item t with
  | None => Some (k, v, hk)
  | Some (k0, v0, p0) => if hk <? p0 then Some (k0, v0, p0) else Some (k, v, hk)
  end.
Proof.
  destruct t as [|a key val prio l r]; simpl; [done|].
  destruct (hk <? prio); [by destruct (k <? key)|done].
Qed.

(** ** The driver loop as a sequence of tree insertions *)

Lemma main_loop_refines input : ∀ fuel m x t,
  tree_at m (Var x) t → NoDup (addrs t) →
  (length (addrs t) + length input + 1 < fuel)%nat →
  ∃ m' ns, main_loop fuel m (Var x) input = Some m' ∧
    length ns = length input ∧
    tree_at m' (Var x) (insert_all t ns input) ∧
    NoDup (addrs (insert_all t ns input)).
Proof.
  induction input as [|[[k v] rnd] rest IH]; intros fuel m x t Ht Hnd Hfuel.
  { exists m, []. simpl. eauto. }
  rewrite main_loop_cons.
  destruct (new_Node m k v rnd) as [m1 a] eqn:Hnew. simpl.
  apply new_Node_spec in Hnew as (Ha & Hrd & Hpay & Hrep).
  destruct Ht as (p & Hp & Hrt).
  assert (a ∉ addrs t) as Hat.
  { intros Hin. destruct (repr_allocated _ _ _ _ Hrt Hin) as [? Hsome].
    congruence. }
  destruct (insert_refines t fuel m1 (Var x) a k v rnd)
    as (m2 & Hi & Ht2 & _); [| |done| |done|done|done|done|].
  - pose proof (depth_le_addrs t). simpl in Hfuel. lia.
  - exists p. split; [by rewrite Hrd|].
    eapply (repr_ext_on m); [| |done].
    + intros b Hb. apply Hpay. by intros ->.
    + intros y (b & Hb & [->| ->])%elem_of_cells; apply Hrd; congruence.
  - rewrite elem_of_cells. by intros (? & _ & [?|?]).
  - rewrite Hi. simpl.
    destruct (IH fuel m2 x (insert_tree t a k v rnd)) as (m' & ns & Hm & Hlen & Ht' & Hnd').
    + done.
    + eapply NoDup_submseteq_inv; [apply addrs_insert_tree|].
      by apply NoDup_cons.
    + pose proof (submseteq_length _ _ (addrs_insert_tree t a k v rnd)) as Hl.
      simpl in Hl, Hfuel. lia.
    + exists m', (a :: ns). simpl. rewrite Hlen. done.
Qed.

Lemma run_refines input :
  ∃ m ns, run input = Some m ∧ length ns = length input ∧
    tree_at m (Var 0) (insert_all E ns input).
Proof.
  destruct (main_loop_refines input (S (S (length input))) main_mem 0%nat E)
    as (m & ns & Hrun & Hlen & Ht & _).
  - by exists None.
  - constructor.
  - simpl. lia.
  - by exists m, ns.
Qed.

Lemma keys_insert_all input : ∀ t ns,
  keys (insert_all t ns input) ⊆+ keys t ++ input_keys input.
Proof.
  induction input as [|[[k v] rnd] rest IH]; intros t ns.
  { destruct ns; simpl; by rewrite app_nil_r. }
  destruct ns as [|n ns]; simpl.
  { apply submseteq_inserts_r. done. }
  trans (keys (insert_tree t n k v rnd) ++ input_keys rest); [apply IH|].
  trans ((k :: keys t) ++ input_keys rest).
  - apply submseteq_app; [apply keys_insert_tree|done].
  - apply Permutation_submseteq. simpl. apply Permutation_middle.
Qed.

Lemma size_insert_all input : ∀ t ns,
  (length (addrs (insert_all t ns input)) ≤ length (addrs t) + length input)%nat.
Proof.
  induction input as [|[[k v] rnd] rest IH]; intros t ns.
  { destruct ns; simpl; lia. }
  destruct ns as [|n ns]; simpl; [lia|].
  specialize (IH (insert_tree t n k v rnd) ns).
  pose proof (submseteq_length _ _ (addrs_insert_tree t n k v rnd)) as Hl.
  simpl in Hl. lia.
Qed.

Lemma bst_insert_all input : ∀ t ns,
  bst t → NoDup (keys t ++ input_keys input) → bst (insert_all t ns input).
Proof.
  induction input as [|[[k v] rnd] rest IH]; intros t ns Hbst Hnd.
  { by destruct ns. }
  destruct ns as [|n ns]; simpl; [done|].
  simpl in Hnd. apply NoDup_app in Hnd as (Hk & Hdisj & Hrest).
  apply NoDup_cons in Hrest as [Hkr Hrest].
  assert (k ∉ keys t) as Hkt.
  { intros Hin. apply (Hdisj k Hin). by left. }
  apply IH; [by apply bst_insert_tree|].
  eapply NoDup_submseteq_inv.
  - apply submseteq_app; [apply keys_insert_tree|reflexivity].
  - simpl. apply NoDup_cons. split.
    + rewrite elem_of_app. tauto.
    + apply NoDup_app. split; [done|]. split; [|done].
      intros y Hy Hin. apply (Hdisj y Hy). by right.
Qed.

Lemma insert_all_snoc input : ∀ t ns n k v rnd,
  length ns = length input →
  insert_all t (ns ++ [n]) (input ++ [(k, v, rnd)]) =
  insert_tree (insert_all t ns input) n k v rnd.
Proof.
  induction input as [|[[k0 v0] r0] rest IH]; intros t ns n k v rnd Hlen.
  { by destruct ns. }
  destruct ns as [|n0 ns]; [done|]. simpl. apply IH. simpl in Hlen. lia.
Qed.

Lemma depth_insert_all input t ns :
  (depth (insert_all t ns input) ≤ length (addrs t) + length input)%nat.
Proof.
  pose proof (depth_le_addrs (insert_all t ns input)).
  pose proof (size_insert_all input t ns). lia.
Qed.

(** From a non-empty tree on, the root is the old root or an input, and
    no old root or input has a greater priority. *)
Lemma root_item_insert_all input : ∀ t ns x0,
  length ns = length input → root_item t = Some x0 →
  ∃ x, root_item (insert_all t ns input) = Some x ∧
    (x = x0 ∨ x ∈ input) ∧ x0.2 ≤ x.2 ∧ Forall (λ y, y.2 ≤ x.2) input.
Proof.
  induction input as [|[[k v] rnd] rest IH]; intros t ns [[k0 v0] p0] Hlen Hroot.
  { destruct ns; [|done]. exists (k0, v0, p0). simpl.
    split; [done|]. split; [by left|]. split; [lia|constructor]. }
  destruct ns as [|n ns]; [done|]. simpl in Hlen |- *.
  pose proof (root_item_insert_tree t n k v rnd) as Hr. rewrite Hroot in Hr.
  destruct (rnd <? p0) eqn:Hlt.
  - apply Z.ltb_lt in Hlt.
    destruct (IH _ ns _ ltac:(lia) Hr) as (x & Hx & Hin & Hle & Hall).
    exists x. split; [done|]. simpl in Hle. split; [set_solver|].
    split; [done|]. constructor; [simpl; lia|done].
  - apply Z.ltb_ge in Hlt.
    destruct (IH _ ns _ ltac:(lia) Hr) as (x & Hx & Hin & Hle & Hall).
    exists x. split; [done|]. simpl in Hle. split; [set_solver|].
    split; [simpl; lia|]. constructor; [simpl; lia|done].
Qed.

(** Keys that arrive in increasing order are all kept, in order. *)
Lemma keys_insert_all_increasing input : ∀ t ns,
  length ns = length input →
  Forall (λ x, Forall (λ y, x < y) (input_keys input)) (keys t) →
  StronglySorted Z.lt (input_keys input) →
  keys (insert_all t ns input) = keys t ++ input_keys input.
Proof.
  induction input as [|[[k v] rnd] rest IH]; intros t ns Hlen Hlt Hs.
  { destruct ns; [|done]. simpl. by rewrite app_nil_r. }
  destruct ns as [|n ns]; [done|]. simpl in Hlen |- *.
  apply StronglySorted_inv in Hs as [Hs Hk].
  assert (Forall (λ x, x ≤ k) (keys t)) as Hle.
  { eapply Forall_impl; [exact Hlt|]. simpl.
    intros x Hx. apply Forall_cons in Hx as [? _]. lia. }
  rewrite IH; [|lia| |done].
  - rewrite insert_tree_key_above by done. by rewrite <- app_assoc.
  - rewrite insert_tree_key_above by done. apply Forall_app. split.
    + eapply Forall_impl; [exact Hlt|]. simpl.
      intros x Hx. by apply Forall_cons in Hx as [_ ?].
    + by constructor.
Qed.

(** Keys that arrive in decreasing order are all kept, in reverse. *)
Lemma keys_insert_all_decreasing input : ∀ t ns,
  length ns = length input →
  Forall (λ x, Forall (λ y, y < x) (input_keys input)) (keys t) →
  StronglySorted Z.gt (input_keys input) →
  keys (insert_all t ns input) = reverse (input_keys input) ++ keys t.
Proof.
  induction input as [|[[k v] rnd] rest IH]; intros t ns Hlen Hlt Hs.
  { by destruct ns. }
  destruct ns as [|n ns]; [done|]. simpl in Hlen |- *.
  apply StronglySorted_inv in Hs as [Hs Hk].
  assert (Forall (λ x, k < x) (keys t)) as Hgt.
  { eapply Forall_impl; [exact Hlt|]. simpl.
    intros x Hx. by apply Forall_cons in Hx as [? _]. }
  rewrite IH; [|lia| |done].
  - rewrite insert_tree_key_below by done.
    rewrite reverse_cons, <- app_assoc. done.
  - rewrite insert_tree_key_below by done. constructor.
    + eapply Forall_impl; [exact Hk|]. simpl. lia.
    + eapply Forall_impl; [exact Hlt|]. simpl.
      intros x Hx. by apply Forall_cons in Hx as [_ ?].
Qed.

(** Priorities that arrive in decreasing order never cause a split of a
    non-empty tree: all keys are kept. *)
Lemma keys_insert_all_low_priority input : ∀ t ns,
  length ns = length input →
  Forall (λ p, Forall (λ q, q < p) (input_prios input)) (prios t) →
  StronglySorted Z.gt (input_prios input) →
  keys (insert_all t ns input) ≡ₚ keys t ++ input_keys input.
Proof.
  induction input as [|[[k v] rnd] rest IH]; intros t ns Hlen Hlt Hs.
  { destruct ns; [|done]. simpl. by rewrite app_nil_r. }
  destruct ns as [|n ns]; [done|]. simpl in Hlen |- *.
  apply StronglySorted_inv in Hs as [Hs Hk].
  assert (Forall (λ p, rnd < p) (prios t)) as Hgt.
  { eapply Forall_impl; [exact Hlt|]. simpl.
    intros x Hx. by apply Forall_cons in Hx as [? _]. }
  destruct (insert_tree_low_priority t n k v rnd Hgt) as [Hkeys Hprios].
  rewrite IH; [|lia| |done].
  - rewrite Hkeys. simpl. apply Permutation_middle.
  - rewrite Hprios. constructor.
    + eapply Forall_impl; [exact Hk|]. simpl. lia.
    + eapply Forall_impl; [exact Hlt|]. simpl.
      intros x Hx. by apply Forall_cons in Hx as [_ ?].
Qed.

Lemma StronglySorted_lt_NoDup (xs : list Z) : StronglySorted Z.lt xs → NoDup xs.
Proof.
  induction 1 as [|x xs Hs IH Hx]; constructor; [|done].
  rewrite Forall_forall in Hx. intros Hin%Hx. lia.
Qed.

Lemma StronglySorted_gt_NoDup (xs : list Z) : StronglySorted Z.gt xs → NoDup xs.
Proof.
  induction 1 as [|x xs Hs IH Hx]; constructor; [|done].
  rewrite Forall_forall in Hx. intros Hin%Hx. lia.
Qed.

Lemma cells_insert_tree t n k v hk x :
  x ∈ cells (insert_tree t n k v hk) → x = Left n ∨ x = Right n ∨ x ∈ cells t.
Proof.
  rewrite !elem_of_cells. intros (a & Ha & Hx).
  pose proof (addrs_insert_tree t n k v hk) as Hin.
  apply (elem_of_submseteq _ _ _ Ha) in Hin.
  apply elem_of_cons in Hin as [->|Hin]; [tauto|]. right. right. eauto.
Qed.

Lemma snoc_length {A} (xs : list A) (len : nat) :
  length xs = S len → ∃ ys y, xs = ys ++ [y] ∧ length ys = len.
Proof.
  destruct xs as [|y ys _] using rev_ind; [done|].
  rewrite length_app. simpl. intros. exists ys, y. split; [done|lia].
Qed.

(** * Further theorems *)

(** X1.  [exists] answers true only for keys of the tree, and on a
    search tree it answers true exactly for the keys of the tree. *)
Theorem exists_finds_exactly_the_keys fuel m p k t :
  repr m p t → (depth t < fuel)%nat →
  (exists_ fuel m p k = Some true → k ∈ keys t) ∧
  (bst t → exists_ fuel m p k = Some (bool_decide (k ∈ keys t))).
Proof.
  intros Hrep Hfuel. split.
  - intros Hex. eapply exists_sound; eauto.
  - intros Hbst. by apply exists_search.
Qed.

Lemma exists_finds_exactly_the_keys_witness :
  (exists_ 3 mem_a (Some 1%positive) 5 = Some true → 5 ∈ keys tree_a) ∧
  (bst tree_a →
   exists_ 3 mem_a (Some 1%positive) 5 = Some (bool_decide (5 ∈ keys tree_a))).
Proof.
  apply (exists_finds_exactly_the_keys 3 mem_a (Some 1%positive) 5 tree_a).
  - solve_tree_at.
  - simpl. lia.
Defined.

(** X2.  An outermost [split] never returns two non-empty trees: when
    the pivot is below the root key, [l] receives NULL and [r] the root
    with its right subtree untouched; otherwise [r] receives NULL and
    [l] the root with its left subtree untouched. *)
Theorem split_one_side_empty fuel m c k l r t :
  owns m c t → out_params m c l r t → (depth t < fuel)%nat →
  ∃ m' L R, split fuel m c k l r = Some m' ∧
    tree_at m' l L ∧ tree_at m' r R ∧ (L = E ∨ R = E) ∧
    ∀ a key v hk tl tr, t = T a key v hk tl tr →
      (k < key → L = E ∧ ∃ tl', R = T a key v hk tl' tr) ∧
      (key ≤ k → R = E ∧ ∃ tr', L = T a key v hk tl tr').
Proof.
  intros (Ht & Hnd & Hc) (Hl & Hr & Hlr & Hcl & Hcr & Hvl & Hvr) Hfuel.
  destruct (split_refines k t fuel m c l r) as (m' & Hs & HL & HR & _);
    try done.
  exists m', (split_tree t k).1, (split_tree t k).2.
  do 3 (split; [done|]). split; [apply split_tree_one_side|].
  intros a key v hk tl tr ->. simpl. split.
  - intros Hk%Z.ltb_lt. rewrite Hk. simpl. eauto.
  - intros Hk%Z.ltb_ge. rewrite Hk. simpl. eauto.
Qed.

Lemma split_one_side_empty_witness :
  ∃ m' L R, split 3 mem_a (Var 0) 7 (Var 1) (Var 2) = Some m' ∧
    tree_at m' (Var 1) L ∧ tree_at m' (Var 2) R ∧ (L = E ∨ R = E) ∧
    ∀ a key v hk tl tr, tree_a = T a key v hk tl tr →
      (7 < key → L = E ∧ ∃ tl', R = T a key v hk tl' tr) ∧
      (key ≤ 7 → R = E ∧ ∃ tr', L = T a key v hk tl tr').
Proof.
  apply (split_one_side_empty 3 mem_a (Var 0) 7 (Var 1) (Var 2) tree_a).
  - solve_owns.
  - solve_out_params.
  - simpl. lia.
Defined.

(** X3.  On a search tree [split] keeps every key exactly when the
    pivot lies outside the keys of the tree; it then returns the whole
    tree on one side. *)
Theorem split_lossless_iff fuel m c k l r t :
  owns m c t → out_params m c l r t → bst t → (depth t < fuel)%nat →
  ∃ m' L R, split fuel m c k l r = Some m' ∧
    tree_at m' l L ∧ tree_at m' r R ∧
    (keys L ++ keys R ≡ₚ keys t ↔
       Forall (λ x, k < x) (keys t) ∨ Forall (λ x, x ≤ k) (keys t)) ∧
    (Forall (λ x, k < x) (keys t) → L = E ∧ R = t) ∧
    (Forall (λ x, x ≤ k) (keys t) → L = t ∧ R = E).
Proof.
  intros (Ht & Hnd & Hc) (Hl & Hr & Hlr & Hcl & Hcr & Hvl & Hvr) Hbst Hfuel.
  destruct (split_refines k t fuel m c l r) as (m' & Hs & HL & HR & _);
    try done.
  exists m', (split_tree t k).1, (split_tree t k).2.
  do 3 (split; [done|]).
  destruct (bounds_split_tree t k Hbst) as [Hle Hgt].
  split; [split|split].
  - intros Hperm. destruct (split_tree_one_side t k) as [HE|HE];
      rewrite HE in Hperm; simpl in Hperm.
    + left. by rewrite <- Hperm.
    + right. rewrite app_nil_r in Hperm. by rewrite <- Hperm.
  - intros [H|H].
    + by rewrite (split_tree_above t k H).
    + rewrite (split_tree_below t k H). simpl. by rewrite app_nil_r.
  - intros H. by rewrite (split_tree_above t k H).
  - intros H. by rewrite (split_tree_below t k H).
Qed.

Lemma split_lossless_iff_witness :
  ∃ m' L R, split 3 mem_a (Var 0) 12 (Var 1) (Var 2) = Some m' ∧
    tree_at m' (Var 1) L ∧ tree_at m' (Var 2) R ∧
    (keys L ++ keys R ≡ₚ keys tree_a ↔
       Forall (λ x, 12 < x) (keys tree_a) ∨ Forall (λ x, x ≤ 12) (keys tree_a)) ∧
    (Forall (λ x, 12 < x) (keys tree_a) → L = E ∧ R = tree_a) ∧
    (Forall (λ x, x ≤ 12) (keys tree_a) → L = tree_a ∧ R = E).
Proof.
  apply (split_lossless_iff 3 mem_a (Var 0) 12 (Var 1) (Var 2) tree_a).
  - solve_owns.
  - solve_out_params.
  - simpl. compute_done.
  - simpl. lia.
Defined.

(** X4.  An outermost [split] writes nothing but its two out-parameters
    and child cells of the tree: [treap] keeps pointing at the old root
    (which one out-parameter now points at as well), and each
    out-parameter owns the tree it received. *)
Theorem split_frame fuel m c k l r t :
  owns m c t → out_params m c l r t → (depth t < fuel)%nat →
  ∃ m' L R, split fuel m c k l r = Some m' ∧
    owns m' l L ∧ owns m' r R ∧
    read m' c = read m c ∧
    (∀ y, y ∉ l :: r :: cells t → read m' y = read m y) ∧
    (t ≠ E → read m' l = read m c ∨ read m' r = read m c).
Proof.
  intros (Ht & Hnd & Hc) (Hl & Hr & Hlr & Hcl & Hcr & Hvl & Hvr) Hfuel.
  destruct (split_refines k t fuel m c l r) as (m' & Hs & HL & HR & Hf);
    try done.
  exists m', (split_tree t k).1, (split_tree t k).2.
  pose proof (addrs_split_tree t k) as Hsub.
  split; [done|]. split; [|split; [|split; [|split; [done|]]]].
  - split; [done|]. split.
    + eapply NoDup_submseteq_inv; [|exact Hnd].
      etrans; [|exact Hsub]. by apply submseteq_inserts_r.
    + intros Hin. apply Hl, (cells_split_tree t k). by left.
  - split; [done|]. split.
    + eapply NoDup_submseteq_inv; [|exact Hnd].
      etrans; [|exact Hsub]. by apply submseteq_inserts_l.
    + intros Hin. apply Hr, (cells_split_tree t k). by right.
  - apply Hf. set_solver.
  - intros Hne. destruct Ht as (p & Hp & Hrep).
    destruct HL as (pl & Hpl & HrL). destruct HR as (pr & Hpr & HrR).
    destruct t as [|a key v hk tl tr]; [done|].
    simpl in Hrep. destruct Hrep as (-> & _). simpl in HrL, HrR.
    destruct (k <? key); simpl in HrL, HrR.
    + right. destruct HrR as (-> & _). congruence.
    + left. destruct HrL as (-> & _). congruence.
Qed.

Lemma split_frame_witness :
  ∃ m' L R, split 3 mem_a (Var 0) 7 (Var 1) (Var 2) = Some m' ∧
    owns m' (Var 1) L ∧ owns m' (Var 2) R ∧
    read m' (Var 0) = read mem_a (Var 0) ∧
    (∀ y, y ∉ Var 1 :: Var 2 :: cells tree_a → read m' y = read mem_a y) ∧
    (tree_a ≠ E → read m' (Var 1) = read mem_a (Var 0) ∨
                  read m' (Var 2) = read mem_a (Var 0)).
Proof.
  apply (split_frame 3 mem_a (Var 0) 7 (Var 1) (Var 2) tree_a).
  - solve_owns.
  - solve_out_params.
  - simpl. lia.
Defined.

(** X5.  A call of [split] that passes the tree cell itself as one of
    the out-parameters always stores NULL in the other one: with
    [r] = [treap] the cell keeps the nodes of the left spine down to the
    first key not above the pivot, with [l] = [treap] those of the right
    spine down to the first key above the pivot. *)
Theorem split_in_place fuel m c o k t :
  owns m c t → o ∉ cells t → o ≠ c → is_Some (read m o) →
  (depth t < fuel)%nat →
  (∃ m', split fuel m c k o c = Some m' ∧
     tree_at m' o E ∧ tree_at m' c (cut_left k t)) ∧
  (∃ m', split fuel m c k c o = Some m' ∧
     tree_at m' o E ∧ tree_at m' c (cut_right k t)).
Proof.
  intros ((p & Hp & Hrep) & Hnd & Hc) Ho Hoc Hvo Hfuel.
  destruct (split_aliased k t fuel m c o p)
    as [(m1 & p1 & Hs1 & Ho1 & Hc1 & Hr1 & _) (m2 & p2 & Hs2 & Ho2 & Hc2 & Hr2 & _)];
    try done.
  split.
  - exists m1. split; [done|]. split; [by exists None|by exists p1].
  - exists m2. split; [done|]. split; [by exists None|by exists p2].
Qed.

Lemma split_in_place_witness :
  (∃ m', split 3 mem_a (Var 0) 7 (Var 1) (Var 0) = Some m' ∧
     tree_at m' (Var 1) E ∧ tree_at m' (Var 0) (cut_left 7 tree_a)) ∧
  (∃ m', split 3 mem_a (Var 0) 7 (Var 0) (Var 1) = Some m' ∧
     tree_at m' (Var 1) E ∧ tree_at m' (Var 0) (cut_right 7 tree_a)).
Proof.
  apply (split_in_place 3 mem_a (Var 0) (Var 1) 7 tree_a).
  - solve_owns.
  - compute_done.
  - compute_done.
  - eexists. reflexivity.
  - simpl. lia.
Defined.

(** X6.  [insert] writes nothing but [treap], the two child cells of
    the new node and child cells of the tree, and leaves [treap] owning
    a tree whose keys are the new key and some of the old ones. *)
Theorem insert_frame fuel m c n k v hk t :
  owns m c t → fresh_node m c n k v hk t → (S (depth t) < fuel)%nat →
  ∃ m' t', insert fuel m c n = Some m' ∧ owns m' c t' ∧
    k ∈ keys t' ∧ keys t' ⊆+ k :: keys t ∧
    (∀ y, y ∉ c :: Left n :: Right n :: cells t → read m' y = read m y).
Proof.
  intros (Ht & Hnd & Hc) (Hn & HcL & HcR & Hnew) Hfuel.
  destruct (insert_refines t fuel m c n k v hk) as (m' & Hi & Ht' & Hf);
    try done.
  exists m', (insert_tree t n k v hk). split; [done|]. split.
  - split; [done|]. split.
    + eapply NoDup_submseteq_inv; [apply addrs_insert_tree|].
      by apply NoDup_cons.
    + intros [?|[?|?]]%cells_insert_tree; done.
  - split; [apply keys_insert_tree_new|]. split; [apply keys_insert_tree|done].
Qed.

Lemma insert_frame_witness :
  ∃ m' t', insert 4 mem_a (Var 0) 3%positive = Some m' ∧ owns m' (Var 0) t' ∧
    7 ∈ keys t' ∧ keys t' ⊆+ 7 :: keys tree_a ∧
    (∀ y, y ∉ Var 0 :: Left 3 :: Right 3 :: cells tree_a →
       read m' y = read mem_a y).
Proof.
  apply (insert_frame 4 mem_a (Var 0) 3%positive 7 0 9 tree_a).
  - solve_owns.
  - solve_fresh_node.
  - simpl. lia.
Defined.

(** X7.  After [insert] of a node whose key is not yet in a search
    tree, [exists] finds that key. *)
Theorem insert_then_exists fuel m c n k v hk t :
  owns m c t → fresh_node m c n k v hk t → bst t → k ∉ keys t →
  (S (depth t) < fuel)%nat →
  ∃ m' p, insert fuel m c n = Some m' ∧ read m' c = Some p ∧
    exists_ fuel m' p k = Some true.
Proof.
  intros (Ht & Hnd & Hc) (Hn & HcL & HcR & Hnew) Hbst Hk Hfuel.
  destruct (insert_refines t fuel m c n k v hk)
    as (m' & Hi & (p & Hp & Hrep) & _); try done.
  exists m', p. split; [done|]. split; [done|].
  pose proof (depth_insert_tree t n k v hk).
  rewrite (exists_search _ fuel m' p k Hrep); [| |lia].
  - f_equal. apply bool_decide_eq_true, keys_insert_tree_new.
  - by apply bst_insert_tree.
Qed.

Lemma insert_then_exists_witness :
  ∃ m' p, insert 4 mem_a (Var 0) 3%positive = Some m' ∧
    read m' (Var 0) = Some p ∧ exists_ 4 m' p 7 = Some true.
Proof.
  apply (insert_then_exists 4 mem_a (Var 0) 3%positive 7 0 9 tree_a).
  - solve_owns.
  - solve_fresh_node.
  - simpl. compute_done.
  - compute_done.
  - simpl. lia.
Defined.

(** X8.  [insert] keeps every node, so the number of keys grows by
    one, whenever the new priority is below every priority of the tree
    or the new key lies outside the keys of the tree. *)
Theorem insert_keeps_all_keys fuel m c n k v hk t :
  owns m c t → fresh_node m c n k v hk t → (S (depth t) < fuel)%nat →
  Forall (λ p, hk < p) (prios t) ∨ Forall (λ x, k < x) (keys t) ∨
    Forall (λ x, x ≤ k) (keys t) →
  ∃ m' t', insert fuel m c n = Some m' ∧ tree_at m' c t' ∧
    keys t' ≡ₚ k :: keys t.
Proof.
  intros (Ht & Hnd & Hc) (Hn & HcL & HcR & Hnew) Hfuel Hcond.
  destruct (insert_refines t fuel m c n k v hk) as (m' & Hi & Ht' & _);
    try done.
  exists m', (insert_tree t n k v hk). split; [done|]. split; [done|].
  destruct Hcond as [H|[H|H]].
  - by apply insert_tree_low_priority.
  - by rewrite insert_tree_key_below.
  - rewrite insert_tree_key_above by done. symmetry. apply Permutation_cons_append.
Qed.

Lemma insert_keeps_all_keys_witness :
  ∃ m' t', insert 4 mem_c (Var 0) 2%positive = Some m' ∧
    tree_at m' (Var 0) t' ∧ keys t' ≡ₚ 10 :: keys tree_c.
Proof.
  apply (insert_keeps_all_keys 4 mem_c (Var 0) 2%positive 10 0 4 tree_c).
  - solve_owns.
  - solve_fresh_node.
  - simpl. lia.
  - left. simpl. compute_done.
Defined.

(** X9.  The constructor prepares a call of [insert]: the node it
    returns is new, holds the given key, value and priority with both
    children NULL, and every cell that existed before keeps its
    contents, so a tree owned by a cell is still owned by it. *)
Theorem new_Node_ready_for_insert m c t k v rnd m1 a :
  owns m c t → new_Node m k v rnd = (m1, a) →
  owns m1 c t ∧ fresh_node m1 c a k v rnd t ∧
  nodes m !! a = None ∧
  (∀ y, is_Some (read m y) → read m1 y = read m y).
Proof.
  intros ((p & Hp & Hrep) & Hnd & Hc) (Ha & Hrd & Hpay & Hnew)%new_Node_spec.
  assert (∀ y, is_Some (read m y) → read m1 y = read m y) as Hold.
  { intros y [q Hq]. apply Hrd; intros ->; unfold read in Hq;
      rewrite Ha in Hq; done. }
  assert (a ∉ addrs t) as Hat.
  { intros Hin. destruct (repr_allocated _ _ _ _ Hrep Hin) as [? Hsome].
    congruence. }
  split; [|split; [|done]].
  - split; [|done]. exists p. split; [rewrite Hold; eauto|].
    eapply (repr_ext_on m); [| |done].
    + intros b Hb. apply Hpay. by intros ->.
    + intros y (b & Hb & [->| ->])%elem_of_cells; apply Hrd; congruence.
  - split; [done|].
    split; [intros ->; unfold read in Hp; by rewrite Ha in Hp|].
    split; [intros ->; unfold read in Hp; by rewrite Ha in Hp|done].
Qed.

Lemma new_Node_ready_for_insert_witness :
  owns (new_Node mem_a 20 0 1).1 (Var 0) tree_a ∧
  fresh_node (new_Node mem_a 20 0 1).1 (Var 0) (new_Node mem_a 20 0 1).2
    20 0 1 tree_a ∧
  nodes mem_a !! (new_Node mem_a 20 0 1).2 = None ∧
  (∀ y, is_Some (read mem_a y) →
     read (new_Node mem_a 20 0 1).1 y = read mem_a y).
Proof.
  apply (new_Node_ready_for_insert mem_a (Var 0) tree_a 20 0 1).
  - solve_owns.
  - by destruct (new_Node mem_a 20 0 1).
Defined.

Global Arguments to_int : simpl never.

Lemma main_read_eq input : ∀ fuel m x,
  main_read fuel m x input = main_loop fuel m x (narrow <$> input).
Proof.
  induction input as [|[[k v] rnd] rest IH]; intros fuel m x; [done|].
  simpl. destruct (insert fuel _ x _) as [m2|]; simpl; [apply IH|done].
Qed.

Lemma main_eq input : main input = run (narrow <$> input).
Proof. unfold main, run. rewrite length_fmap. apply main_read_eq. Qed.

Lemma input_keys_narrow input : input_keys (narrow <$> input) = stored_keys input.
Proof.
  unfold input_keys, stored_keys. rewrite <- list_fmap_compose.
  by apply list_fmap_ext.
Qed.

Lemma input_prios_narrow input : input_prios (narrow <$> input) = input_prios input.
Proof.
  unfold input_prios. rewrite <- list_fmap_compose. by apply list_fmap_ext.
Qed.

Lemma main_refines input :
  ∃ m ns, main input = Some m ∧ length ns = length input ∧
    tree_at m (Var 0) (insert_all E ns (narrow <$> input)).
Proof.
  destruct (run_refines (narrow <$> input)) as (m & ns & Hrun & Hlen & Ht).
  rewrite length_fmap in Hlen. exists m, ns. by rewrite main_eq.
Qed.

(** X10.  Whatever it reads, keys repeated or not, the driver loop runs
    to its end, and the tree it leaves holds only keys of nodes it
    constructed (the keys read, converted to [int]): [exists] never
    answers true for another key. *)
Theorem main_sound input :
  ∃ m p t, main input = Some m ∧ read m (Var 0) = Some p ∧ repr m p t ∧
    keys t ⊆+ stored_keys input ∧
    ∀ fuel k, exists_ fuel m p k = Some true → k ∈ stored_keys input.
Proof.
  destruct (main_refines input) as (m & ns & Hrun & Hlen & (p & Hp & Hrep)).
  exists m, p, (insert_all E ns (narrow <$> input)).
  pose proof (keys_insert_all (narrow <$> input) E ns) as Hsub.
  simpl in Hsub. rewrite input_keys_narrow in Hsub.
  do 4 (split; [done|]). intros fuel k Hex.
  eapply elem_of_submseteq; [|exact Hsub].
  eapply exists_sound; eauto.
Qed.

(** X11.  With pairwise distinct keys, the key inserted last is found
    by [exists]. *)
Theorem run_finds_last_key input k v rnd :
  NoDup (input_keys (input ++ [(k, v, rnd)])) →
  ∃ m p, run (input ++ [(k, v, rnd)]) = Some m ∧ read m (Var 0) = Some p ∧
    exists_ (S (S (length input))) m p k = Some true.
Proof.
  intros Hnd. unfold input_keys in Hnd. rewrite fmap_app in Hnd. simpl in Hnd.
  apply NoDup_app in Hnd as (Hnd & Hk & _).
  destruct (run_refines (input ++ [(k, v, rnd)]))
    as (m & ns & Hrun & Hlen & (p & Hp & Hrep)).
  rewrite length_app, Nat.add_1_r in Hlen.
  apply snoc_length in Hlen as (ns' & n & -> & Hlen).
  rewrite insert_all_snoc in Hrep by done.
  exists m, p. split; [done|]. split; [done|].
  pose proof (keys_insert_all input E ns') as Hsub.
  pose proof (depth_insert_all input E ns') as Hd.
  pose proof (depth_insert_tree (insert_all E ns' input) n k v rnd).
  rewrite (exists_search _ _ m p k Hrep); [| |simpl in Hd; lia].
  - f_equal. apply bool_decide_eq_true, keys_insert_tree_new.
  - apply bst_insert_tree.
    + by apply bst_insert_all.
    + intros Hin. apply (Hk k); [|by left].
      eapply elem_of_submseteq; [exact Hin|exact Hsub].
Qed.

Lemma run_finds_last_key_witness :
  ∃ m p, run ([(10, 0, 5); (5, 0, 3)] ++ [(7, 0, 9)]) = Some m ∧
    read m (Var 0) = Some p ∧ exists_ 4 m p 7 = Some true.
Proof.
  apply (run_finds_last_key [(10, 0, 5); (5, 0, 3)] 7 0 9). compute_done.
Defined.

(** X12.  After a non-empty input the root of the tree is one of the
    pairs read, as stored, and no priority drawn is greater than the
    root's: a node of greatest priority is never lost. *)
Theorem main_root_has_max_priority input :
  input ≠ [] →
  ∃ m a k v hk l r, main input = Some m ∧
    tree_at m (Var 0) (T a k v hk l r) ∧
    (k, v, hk) ∈ narrow <$> input ∧ Forall (λ x, x.2 ≤ hk) input.
Proof.
  intros Hne.
  destruct (main_refines input) as (m & ns & Hrun & Hlen & Ht).
  destruct input as [|[[k0 v0] r0] rest]; [done|].
  destruct ns as [|n ns]; [done|]. simpl in Hlen.
  assert (insert_all E (n :: ns) (narrow <$> (k0, v0, r0) :: rest) =
          insert_all (T n (to_int k0) (to_int v0) r0 E E) ns (narrow <$> rest))
    as Heq by reflexivity.
  rewrite Heq in Ht. clear Heq.
  destruct (root_item_insert_all (narrow <$> rest)
              (T n (to_int k0) (to_int v0) r0 E E) ns (to_int k0, to_int v0, r0))
    as ([[k v] hk] & Hroot & Hin & Hle & Hall);
    [rewrite length_fmap; lia|done|].
  destruct (insert_all (T n (to_int k0) (to_int v0) r0 E E) ns (narrow <$> rest))
    as [|a k' v' hk' l r]; [done|].
  simpl in Hroot. injection Hroot as -> -> ->.
  exists m, a, k, v, hk, l, r. split; [done|]. split; [done|]. split.
  - change (narrow <$> (k0, v0, r0) :: rest)
      with ((to_int k0, to_int v0, r0) :: (narrow <$> rest)).
    set_solver.
  - constructor; [done|]. rewrite Forall_forall in Hall |- *.
    intros x Hx. apply (Hall (narrow x)). by apply list_elem_of_fmap_2.
Qed.

Lemma main_root_has_max_priority_witness :
  ∃ m a k v hk l r, main [(10, 0, 5); (5, 0, 3); (4294967303, 0, 9)] = Some m ∧
    tree_at m (Var 0) (T a k v hk l r) ∧
    (k, v, hk) ∈ narrow <$> [(10, 0, 5); (5, 0, 3); (4294967303, 0, 9)] ∧
    Forall (λ x, x.2 ≤ hk) [(10, 0, 5); (5, 0, 3); (4294967303, 0, 9)].
Proof.
  apply (main_root_has_max_priority
           [(10, 0, 5); (5, 0, 3); (4294967303, 0, 9)]). done.
Defined.

(** X13.  When the keys of the nodes constructed (the keys read,
    converted to [int]) are strictly increasing or strictly decreasing
    in the order of reading, no node is ever lost: [exists] answers
    true exactly for these keys. *)
Theorem main_monotone_keys_complete input :
  StronglySorted Z.lt (stored_keys input) ∨
    StronglySorted Z.gt (stored_keys input) →
  ∃ m p, main input = Some m ∧ read m (Var 0) = Some p ∧
    ∀ k, exists_ (S (length input)) m p k =
         Some (bool_decide (k ∈ stored_keys input)).
Proof.
  intros Hs. rewrite <- input_keys_narrow in Hs |- *.
  destruct (main_refines input) as (m & ns & Hrun & Hlen & (p & Hp & Hrep)).
  exists m, p. split; [done|]. split; [done|]. intros k.
  pose proof (depth_insert_all (narrow <$> input) E ns) as Hd.
  simpl in Hd. rewrite length_fmap in Hd.
  assert (length ns = length (narrow <$> input)) as Hlen'
    by (by rewrite length_fmap).
  assert (NoDup (input_keys (narrow <$> input))) as Hnd.
  { destruct Hs; [by apply StronglySorted_lt_NoDup|
                  by apply StronglySorted_gt_NoDup]. }
  rewrite (exists_search _ _ m p k Hrep); [| |lia].
  - f_equal. apply bool_decide_ext. destruct Hs as [Hs|Hs].
    + rewrite keys_insert_all_increasing; [done|done|constructor|done].
    + rewrite keys_insert_all_decreasing; [|done|constructor|done].
      simpl. rewrite app_nil_r. apply elem_of_reverse.
  - by apply bst_insert_all.
Qed.

Lemma main_monotone_keys_complete_witness :
  ∃ m p, main [(1, 0, 4); (3, 0, 9); (4294967301, 0, 2)] = Some m ∧
    read m (Var 0) = Some p ∧
    ∀ k, exists_ 4 m p k =
         Some (bool_decide
                 (k ∈ stored_keys [(1, 0, 4); (3, 0, 9); (4294967301, 0, 2)])).
Proof.
  apply (main_monotone_keys_complete [(1, 0, 4); (3, 0, 9); (4294967301, 0, 2)]).
  left. vm_compute. repeat constructor; lia.
Defined.

(** X14.  When the keys of the nodes constructed (the keys read,
    converted to [int]) are pairwise distinct and every priority drawn
    is below all earlier ones, no node is ever lost: [exists] answers
    true exactly for these keys. *)
Theorem main_decreasing_priorities_complete input :
  NoDup (stored_keys input) → StronglySorted Z.gt (input_prios input) →
  ∃ m p, main input = Some m ∧ read m (Var 0) = Some p ∧
    ∀ k, exists_ (S (length input)) m p k =
         Some (bool_decide (k ∈ stored_keys input)).
Proof.
  intros Hnd Hs. rewrite <- input_keys_narrow in Hnd |- *.
  rewrite <- input_prios_narrow in Hs.
  destruct (main_refines input) as (m & ns & Hrun & Hlen & (p & Hp & Hrep)).
  exists m, p. split; [done|]. split; [done|]. intros k.
  pose proof (depth_insert_all (narrow <$> input) E ns) as Hd.
  simpl in Hd. rewrite length_fmap in Hd.
  assert (length ns = length (narrow <$> input)) as Hlen'
    by (by rewrite length_fmap).
  rewrite (exists_search _ _ m p k Hrep); [| |lia].
  - f_equal. apply bool_decide_ext.
    rewrite keys_insert_all_low_priority; [done|done|constructor|done].
  - by apply bst_insert_all.
Qed.

Lemma main_decreasing_priorities_complete_witness :
  ∃ m p, main [(10, 0, 9); (4294967301, 0, 6); (7, 0, 2)] = Some m ∧
    read m (Var 0) = Some p ∧
    ∀ k, exists_ 4 m p k =
         Some (bool_decide
                 (k ∈ stored_keys [(10, 0, 9); (4294967301, 0, 6); (7, 0, 2)])).
Proof.
  apply (main_decreasing_priorities_complete
           [(10, 0, 9); (4294967301, 0, 6); (7, 0, 2)]).
  - compute_done.
  - vm_compute. repeat constructor; lia.
Defined.

(** X15.  The height the driver reports is at most the number of pairs
    read, and at least 1 when something was read. *)
Theorem run_height input :
  Z.of_nat (length input) < ulong_mod →
  ∃ m h, run input = Some m ∧
    height (S (length input)) m (Var 0) = Some h ∧
    0 ≤ h ≤ Z.of_nat (length input) ∧ (input ≠ [] → 1 ≤ h).
Proof.
  intros Hlen64.
  destruct (run_refines input) as (m & ns & Hrun & Hlen & Ht).
  pose proof (depth_insert_all input E ns) as Hd. simpl in Hd.
  pose proof (height_spec_depth (insert_all E ns input)) as Hh.
  exists m, (height_spec (insert_all E ns input)). split; [done|].
  split; [apply height_refines; [lia|done|lia]|]. split; [lia|].
  intros Hne. destruct input as [|[[k0 v0] r0] rest]; [done|].
  destruct ns as [|n ns]; [done|]. simpl in Hlen, Hh |- *.
  destruct (root_item_insert_all rest (T n k0 v0 r0 E E) ns (k0, v0, r0))
    as (x & Hroot & _); [lia|done|].
  destruct (insert_all (T n k0 v0 r0 E E) ns rest); [done|].
  rewrite height_spec_depth. cbn [depth]. lia.
Qed.

Lemma run_height_witness :
  ∃ m h, run [(10, 0, 5); (5, 0, 3); (7, 0, 9)] = Some m ∧
    height 4 m (Var 0) = Some h ∧
    0 ≤ h ≤ 3 ∧ ([(10, 0, 5); (5, 0, 3); (7, 0, 9)] ≠ [] → 1 ≤ h).
Proof.
  apply (run_height [(10, 0, 5); (5, 0, 3); (7, 0, 9)]). reflexivity.
Defined.

Lemma heap_ord_insert_all input : ∀ t ns,
  heap_ord t → heap_ord (insert_all t ns input).
Proof.
  induction input as [|[[k v] rnd] rest IH]; intros t ns Hh.
  { by destruct ns. }
  destruct ns as [|n ns]; simpl; [done|].
  by apply IH, heap_ord_insert_tree.
Qed.

(** X16.  Whatever the driver reads, keys repeated or not, the tree it
    leaves satisfies the heap invariant. *)
Theorem run_heap_order input :
  ∃ m t, run input = Some m ∧ tree_at m (Var 0) t ∧ heap_ord t.
Proof.
  destruct (run_refines input) as (m & ns & Hrun & Hlen & Ht).
  exists m, (insert_all E ns input). split; [done|]. split; [done|].
  by apply heap_ord_insert_all.
Qed.

(** X17.  A node whose priority is not below the root's becomes the
    new root with at most one child: the old tree hangs on its right
    when the new key is below the old root key, on its left otherwise,
    and the other child is NULL. *)
Theorem insert_new_root_one_child fuel m c n k v hk t key val prio :
  owns m c t → fresh_node m c n k v hk t → (S (depth t) < fuel)%nat →
  root_item t = Some (key, val, prio) → prio ≤ hk →
  ∃ m' L R, insert fuel m c n = Some m' ∧
    tree_at m' c (T n k v hk L R) ∧
    (k < key → L = E ∧ root_item R = Some (key, val, prio)) ∧
    (key ≤ k → R = E ∧ root_item L = Some (key, val, prio)).
Proof.
  intros (Ht & Hnd & Hc) (Hn & HcL & HcR & Hnew) Hfuel Hroot Hprio.
  destruct (insert_refines t fuel m c n k v hk) as (m' & Hi & Ht' & _);
    try done.
  destruct t as [|a key' val' prio' l r]; [done|].
  simpl in Hroot. injection Hroot as -> -> ->.
  simpl in Ht'. apply Z.ltb_ge in Hprio. rewrite Hprio in Ht'.
  exists m'. destruct (k <? key) eqn:Hk; simpl in Ht'.
  - apply Z.ltb_lt in Hk. eexists _, _. split; [done|]. split; [exact Ht'|].
    split; [done|lia].
  - apply Z.ltb_ge in Hk. eexists _, _. split; [done|]. split; [exact Ht'|].
    split; [lia|done].
Qed.

Lemma insert_new_root_one_child_witness :
  ∃ m' L R, insert 4 mem_a (Var 0) 3%positive = Some m' ∧
    tree_at m' (Var 0) (T 3 7 0 9 L R) ∧
    (7 < 10 → L = E ∧ root_item R = Some (10, 0, 5)) ∧
    (10 ≤ 7 → R = E ∧ root_item L = Some (10, 0, 5)).
Proof.
  apply (insert_new_root_one_child 4 mem_a (Var 0) 3%positive 7 0 9 tree_a 10 0 5).
  - solve_owns.
  - solve_fresh_node.
  - simpl. lia.
  - reflexivity.
  - lia.
Defined.
